(** * Haimer-Probe: the dial-reading core of [haimer_camera.py]

    A shallow embedding of the measurement core of [haimer_camera.py]
    (circular statistics, line filtering, morphological skeleton, the
    coarse/fine calibration and the per-frame measurement cycle), and the
    properties its specification states about it.

    Arithmetic conventions.  Python floats are idealised as real numbers
    ([R]); the special values a NumPy scalar division can produce (NaN and
    the infinities) are kept as constructors of [npfloat], because the code
    relies on them.  Pixel coordinates are integers ([Z]); images are
    row-major lists of 8-bit pixel values.  What is proved on the reals
    holds of the code up to rounding; where the rounding of double
    precision decides a property (the upper end of the clamp in
    [calc_mm]), the lines concerned are modelled a second time on binary64
    floats, in the module [Doubles], and the bounds proved on the reals
    include the values the rounding reaches. *)

From Stdlib Require Import Floats.
From Stdlib Require Import Reals Lra Lia ZArith List Bool Ascii Permutation.
Import ListNotations.

Local Open Scope R_scope.

(** ** Python's [math] module on real numbers *)

Module PyMath.

(** Boolean comparison of floats, as used by [if a < b:]. *)
Definition Rltb (a b : R) : bool := if Rlt_dec a b then true else false.

(** [math.atan2(y, x)]: the angle of the point [(x, y)], in [(-PI, PI]];
    [atan2(0, 0)] is [0]. *)
Definition atan2 (y x : R) : R :=
  if Rlt_dec 0 x then atan (y / x)
  else if Rlt_dec x 0 then
    if Rlt_dec y 0 then atan (y / x) - PI else atan (y / x) + PI
  else
    if Rlt_dec 0 y then PI / 2
    else if Rlt_dec y 0 then - (PI / 2)
    else 0.

(** The integral part of [math.modf]: truncation toward zero. *)
Definition trunc (x : R) : Z :=
  if Rle_dec 0 x then Int_part x else (- Int_part (- x))%Z.

(** [math.modf(x)[0]]: the fractional part, carrying the sign of [x]. *)
Definition modf_frac (x : R) : R := x - IZR (trunc x).

(** Python's [max] and [min] on two floats. *)
Definition py_max (a b : R) : R := if Rlt_dec a b then b else a.
Definition py_min (a b : R) : R := if Rlt_dec b a then b else a.

End PyMath.

Import PyMath.

(** ** NumPy scalars *)

(** The result of a NumPy scalar division: a finite value, an infinity
    (division of a non-zero value by zero) or NaN (zero divided by zero).
    NumPy warns in the last two cases and does not raise. *)
Inductive npfloat : Type :=
| Fin (r : R)
| PInf
| NInf
| NaN.

Definition np_div (a b : R) : npfloat :=
  if Req_dec_T b 0 then
    if Req_dec_T a 0 then NaN
    else if Rlt_dec 0 a then PInf else NInf
  else Fin (a / b).

(** [d < c] for a NumPy float [d] and a finite [c]; any comparison with NaN
    is false. *)
Definition np_lt (d : npfloat) (c : R) : bool :=
  match d with
  | Fin r => Rltb r c
  | NInf => true
  | PInf | NaN => false
  end.

(** [np.mean] of a list of floats; the mean of the empty list is NaN
    (rendered as [None]). *)
Definition np_mean (lst : list R) : option R :=
  match lst with
  | [] => None
  | _ :: _ => Some (fold_right Rplus 0 lst / INR (length lst))
  end.

(** ** Module constants *)

Definition c_haimer_ball_diam : R := 4.
Definition c_red_angle_start : R := 1.9170124625343092.
Definition c_red_angle_end : R := c_red_angle_start + 2.5120631002707458.
Definition c_inner_mask_r : Z := 20.

(** ** Circular statistics *)

(** [mean_angles]: the two-argument arctangent of the mean sine and the mean
    cosine.  On the empty list both means are NaN and so is the result. *)
Definition mean_angles (lst : list R) : option R :=
  match np_mean (map sin lst), np_mean (map cos lst) with
  | Some s, Some c => Some (atan2 s c)
  | _, _ => None
  end.

Definition difference_of_angles (theta1 theta2 : R) : R :=
  let dt := theta1 - theta2 in
  atan2 (sin dt) (cos dt).

Definition point : Type := (Z * Z)%type.

Definition line_angle (pt1 pt2 : point) : R :=
  let delta_x := (fst pt2 - fst pt1)%Z in
  let delta_y := (snd pt2 - snd pt1)%Z in
  atan2 (IZR delta_y) (IZR delta_x) + PI / 2.

(** ** Line filtering *)

(** One row of the array returned by [cv2.HoughLinesP]: the two endpoints of
    a detected segment, in pixels.  Image coordinates stay far below the
    range of the 32-bit integers NumPy stores them in, so they are plain
    integers here. *)
Record segment : Type := mkSeg { sx1 : Z; sy1 : Z; sx2 : Z; sy2 : Z }.

(** A segment with the inclusion flag [filter_lines] gives it:
    the Python pair [[inc, lst]]. *)
Definition flagged : Type := (bool * segment)%type.

(** The divisor of the distance computation in the first loop of
    [filter_lines]: the length of the difference vector of the endpoints. *)
Definition distance_divisor (s : segment) : R :=
  let '(x1, y1, x2, y2) := (sx1 s, sy1 s, sx2 s, sy2 s) in
  sqrt (IZR ((y2 - y1) ^ 2 + (x2 - x1) ^ 2)).

(** Its dividend: an integer, converted to a float by the division. *)
Definition distance_dividend (s : segment) (image_center : point) : Z :=
  let '(x0, y0) := image_center in
  let '(x1, y1, x2, y2) := (sx1 s, sy1 s, sx2 s, sy2 s) in
  Z.abs ((y2 - y1) * x0 - (x2 - x1) * y0 + x2 * y1 - y2 * x1).

(** The distance [d] between the image centre and the line through the two
    endpoints, as computed in the first loop of [filter_lines]; nothing
    guards the division. *)
Definition pivot_distance (s : segment) (image_center : point) : npfloat :=
  np_div (IZR (distance_dividend s image_center)) (distance_divisor s).

(** The length [d] of a segment, as computed in the second loop. *)
Definition segment_length (s : segment) : R :=
  let delta_x := (sx1 s - sx2 s)%Z in
  let delta_y := (sy1 s - sy2 s)%Z in
  sqrt (IZR (delta_x ^ 2 + delta_y ^ 2)).

(** One round of the loop that looks for the longest line; the accumulator
    holds [md] and [m_lst], both [None] at the start. *)
Definition longest_step (acc : option (R * flagged)) (lst : flagged)
  : option (R * flagged) :=
  let '(inc, s) := lst in
  if inc then
    let d := segment_length s in
    match acc with
    | None => Some (d, lst)
    | Some (md, _) => if Rltb md d then Some (d, lst) else acc
    end
  else acc.

Definition longest_line (lines2 : list flagged) : option (R * flagged) :=
  fold_left longest_step lines2 None.

(** One round of the loop that compares every line with the longest one:
    what it adds to [lines3]. *)
Definition angle_step (a0 : R) (lst : flagged) : list flagged :=
  let '(inc, s) := lst in
  if inc then
    let a1 := line_angle (sx1 s, sy1 s) (sx2 s, sy2 s) in
    let mt := difference_of_angles a0 a1 in
    [(inc && Rltb (Rabs mt) (PI / 8), s)]
  else [].

(** The list [lines2] the first loop of [filter_lines] builds. *)
Definition first_loop (lines : list segment) (image_center : point)
  (cutoff : Z) : list flagged :=
  map (fun lst => (np_lt (pivot_distance lst image_center) (IZR cutoff), lst))
    lines.

Definition filter_lines (lines : list segment) (image_center : point)
  (cutoff : Z) : list flagged :=
  let lines2 := first_loop lines image_center cutoff in
  match longest_line lines2 with
  | None => lines2
  | Some (_, m_lst) =>
      let s := snd m_lst in
      let a0 := line_angle (sx1 s, sy1 s) (sx2 s, sy2 s) in
      flat_map (angle_step a0) lines2
  end.

(** The angles [aa] collected by [summarize_lines]. *)
Definition endpoint_angles (lines : list flagged) (image_center : point)
  : list R :=
  flat_map
    (fun lst : flagged =>
       let '(inc, s) := lst in
       if inc then
         [line_angle image_center (sx1 s, sy1 s);
          line_angle image_center (sx2 s, sy2 s)]
       else [])
    lines.

(** [summarize_lines]: [None] is Python's [None], returned when no line is
    included. *)
Definition summarize_lines (lines : list flagged) (image_center : point)
  : option R :=
  match endpoint_angles lines image_center with
  | [] => None
  | aa => mean_angles aa
  end.

(** [arrow_common], from the output of [cv2.HoughLinesP] onwards: [lines]
    is [None] when no line was detected. *)
Definition arrow_common (lines : option (list segment)) (image_center : point)
  : option R :=
  match lines with
  | None => None
  | Some ls =>
      let ls' := filter_lines ls image_center (c_inner_mask_r / 4) in
      summarize_lines ls' image_center
  end.

(** ** Bounded histories *)

(** Modelled from the spec: [common.append_v(lst, v, n)], whose module is
    not part of the sources at hand.  A sample that is present is pushed at
    the end of the history, and the oldest entries beyond the capacity [n]
    are evicted; an absent sample leaves the history as it is. *)
Definition append_v {A : Type} (lst : list A) (v : option A) (n : nat)
  : list A :=
  match v with
  | None => lst
  | Some x =>
      let lst' := lst ++ [x] in
      skipn (length lst' - n) lst'
  end.

(** ** Calibration *)

(** The function attributes of [calc_mm]. *)
Record calc_static : Type := mkCalcStatic {
  tare_lst : list (R * R);
  tare_on : bool
}.

(** The values of the local variables of [calc_mm] when it returns. *)
Record calc_locals : Type := mkCalcLocals {
  l_theta_b : R;
  l_theta_r : R;
  l_mm_b : R;
  l_mm_r : R;
  l_mm_r_d : R;
  l_theta_d : R;
  l_mm_offset : R;
  l_mm_blended : R;
  l_mm_final : R
}.

(** The body of [calc_mm] after the tare block, in real arithmetic.  In
    double precision the sum of a tiny negative angle and [math.pi * 2]
    rounds to [math.pi * 2], the upper end of the clamp (see
    [Doubles.calc_mm_linear]); the properties below leave that end in. *)
Definition calc_mm_body (theta_b theta_r : R) : calc_locals :=
  let theta_b := if Rltb theta_b 0 then theta_b + PI * 2 else theta_b in
  let theta_r := if Rltb theta_r 0 then theta_r + PI * 2 else theta_r in
  let theta_b := py_max 0 (py_min (PI * 2) theta_b) in
  let theta_r := py_max 0 (py_min (PI * 2) theta_r) in
  let mm_b := theta_b / (PI * 2) * 1 in
  let mm_r :=
    (theta_r - c_red_angle_start) / (c_red_angle_end - c_red_angle_start)
    * c_haimer_ball_diam in
  let mm_r_d := modf_frac mm_r in
  let theta_d := difference_of_angles theta_b (mm_r_d * PI * 2) in
  let mm_offset := theta_d / (2 * PI) in
  let mm_blended := mm_r + mm_offset in
  let mm_final := mm_blended - c_haimer_ball_diam / 2 in
  mkCalcLocals theta_b theta_r mm_b mm_r mm_r_d theta_d mm_offset mm_blended
    mm_final.

(** The line printed in tare mode: the size of the accumulator and the two
    circular means. *)
Definition tare_line : Type := (nat * option R * option R)%type.

(** [calc_mm]: the new function attributes, what was printed, and the
    returned triple [(mm_final, mm_b, mm_r)]. *)
Definition calc_mm (st : calc_static) (theta_b theta_r : R)
  : calc_static * option tare_line * (R * R * R) :=
  let '(st, out) :=
    if tare_on st then
      let lst := append_v (tare_lst st) (Some (theta_b, theta_r)) 200 in
      (mkCalcStatic lst (tare_on st),
       Some (length lst, mean_angles (map fst lst), mean_angles (map snd lst)))
    else (st, None) in
  let l := calc_mm_body theta_b theta_r in
  (st, out, (l_mm_final l, l_mm_b l, l_mm_r l)).

(** ** Calibration in double precision *)

Module Doubles.

Local Open Scope float_scope.

(** [math.pi]: the double nearest to the number, 3.141592653589793. *)
Definition math_pi : float := 0x1.921fb54442d18p+1.

(** [c_red_angle_start], 1.9170124625343092; [c_red_angle_end], its sum
    with 2.5120631002707458; [c_haimer_ball_diam]. *)
Definition c_red_angle_start : float := 0x1.eac154289bfa0p+0.
Definition c_red_angle_end : float :=
  c_red_angle_start + 0x1.418b489e935b4p+1.
Definition c_haimer_ball_diam : float := 4.

(** Python's [max] and [min] on two floats. *)
Definition py_max (a b : float) : float := if a <? b then b else a.
Definition py_min (a b : float) : float := if b <? a then b else a.

(** The lines of [calc_mm] from the normalisation of the two angles to
    [mm_b] and [mm_r], on doubles: the two normalised angles, [mm_b] and
    [mm_r].  The lines after them go through [math.sin], [math.cos] and
    [math.atan2], of which there is no double-precision definition
    here. *)
Definition calc_mm_linear (theta_b theta_r : float)
  : float * float * float * float :=
  let theta_b := if theta_b <? 0 then theta_b + math_pi * 2 else theta_b in
  let theta_r := if theta_r <? 0 then theta_r + math_pi * 2 else theta_r in
  let theta_b := py_max 0 (py_min (math_pi * 2) theta_b) in
  let theta_r := py_max 0 (py_min (math_pi * 2) theta_r) in
  let mm_b := theta_b / (math_pi * 2) * 1 in
  let mm_r :=
    (theta_r - c_red_angle_start) / (c_red_angle_end - c_red_angle_start)
    * c_haimer_ball_diam in
  (theta_b, theta_r, mm_b, mm_r).

(** The angle -1.1109216914932933e-16, the circular mean in double
    precision of the four endpoint angles of the segments
    (339, 213, 339, 171) and (337, 213, 337, 171) about the pivot
    (338, 234): a pointer that points straight up. *)
Definition straight_up : float := -0x1.00293df48826ap-53.

End Doubles.

(** ** The measurement cycle *)

(** The function attributes of [get_measurement]. *)
Record gm_static : Type := mkGmStatic {
  theta_b_l : list R;
  theta_r_l : list R;
  pause_updates : bool;
  save : bool;
  record : bool;
  record_ind : nat;
  debug_view : bool;
  standalone : bool
}.

(** What one frame contributes to the measurement: its size and the
    segments [cv2.HoughLinesP] found on the skeleton of each pointer. *)
Record frame : Type := mkFrame {
  f_w : Z;
  f_h : Z;
  f_lines_b : option (list segment);
  f_lines_r : option (list segment)
}.

Definition c_image_center (c_center_offset : Z * Z) (w h : Z) : point :=
  (w / 2 + fst c_center_offset, h / 2 + snd c_center_offset)%Z.

Section Cycle.

(** The default capacity of [common.append_v], which the sources at hand
    do not show. *)
Variable K : nat.

(** The pivot offset [c_center_offset], a module global the keyboard
    handler changes. *)
Variable c_center_offset : Z * Z.

(** [get_measurement]: the new function attributes of [get_measurement]
    and of [calc_mm], and the returned [mm_final] ([None] is Python's
    [None]).  The images it builds and writes are left out. *)
Definition get_measurement (gs : gm_static) (cs : calc_static) (f : frame)
  : gm_static * calc_static * option R :=
  let record0 := if standalone gs then record gs else false in
  let save0 := if standalone gs then save gs else false in
  let image_center := c_image_center c_center_offset (f_w f) (f_h f) in
  let theta_b := arrow_common (f_lines_b f) image_center in
  let theta_r := arrow_common (f_lines_r f) image_center in
  let hb := append_v (theta_b_l gs) theta_b K in
  let hr := append_v (theta_r_l gs) theta_r K in
  let '(cs, mm_final) :=
    match hb, hr with
    | _ :: _, _ :: _ =>
        match mean_angles hb, mean_angles hr with
        | Some theta_b, Some theta_r =>
            let '(cs', _, (mm_final, _, _)) := calc_mm cs theta_b theta_r in
            (cs', Some mm_final)
        | _, _ => (cs, None)
        end
    | _, _ => (cs, None)
    end in
  let record_ind' :=
    if standalone gs && record0 then S (record_ind gs) else record_ind gs in
  let save' := if standalone gs then false else save0 in
  (mkGmStatic hb hr (pause_updates gs) save' record0 record_ind'
     (debug_view gs) (standalone gs),
   cs, mm_final).

End Cycle.

(** ** Images and the morphological skeleton *)

Module Image.

Local Open Scope Z_scope.

(** A single-channel 8-bit image: rows of pixel values in [0, 255]. *)
Definition image : Type := list (list Z).

Definition height (img : image) : nat := length img.
Definition width (img : image) : nat := length (hd [] img).

(** The pixel at row [i] and column [j]; outside the image, the border
    value [d]. *)
Definition px (d : Z) (img : image) (i j : Z) : Z :=
  if (i <? 0) || (j <? 0) then d
  else nth (Z.to_nat j) (nth (Z.to_nat i) img []) d.

(** The [h] by [w] image whose pixel [(i, j)] is [f i j]. *)
Definition build (h w : nat) (f : Z -> Z -> Z) : image :=
  map (fun i => map (fun j => f (Z.of_nat i) (Z.of_nat j)) (seq 0 w))
    (seq 0 h).

(** [np.zeros(img.shape, np.uint8)]. *)
Definition zeros (h w : nat) : image := build h w (fun _ _ => 0).

(** [cv2.threshold(img, 127, 255, cv2.THRESH_BINARY)]. *)
Definition threshold (img : image) : image :=
  build (height img) (width img)
    (fun i j => if 127 <? px 0 img i j then 255 else 0).

(** The 3 by 3 cross of [cv2.getStructuringElement(cv2.MORPH_CROSS, (3, 3))]:
    the offsets of the pixels under the kernel. *)
Definition cross : list (Z * Z) := [(0, 0); (-1, 0); (1, 0); (0, -1); (0, 1)].

(** [cv2.erode]: the minimum under the kernel.  With the default border,
    pixels outside the image read as the largest value and never lower the
    minimum. *)
Definition erode (img : image) : image :=
  build (height img) (width img)
    (fun i j =>
       fold_right Z.min 255
         (map (fun o => px 255 img (i + fst o) (j + snd o)) cross)).

(** [cv2.dilate]: the maximum under the kernel; pixels outside the image
    read as the smallest value. *)
Definition dilate (img : image) : image :=
  build (height img) (width img)
    (fun i j =>
       fold_right Z.max 0
         (map (fun o => px 0 img (i + fst o) (j + snd o)) cross)).

(** [cv2.subtract] on 8-bit images saturates at 0. *)
Definition subtract (a b : image) : image :=
  build (height a) (width a) (fun i j => Z.max 0 (px 0 a i j - px 0 b i j)).

Definition bitwise_or (a b : image) : image :=
  build (height a) (width a) (fun i j => Z.lor (px 0 a i j) (px 0 b i j)).

Definition countNonZero (img : image) : nat :=
  list_sum (map (fun row => length (filter (fun v => negb (v =? 0)) row)) img).

(** The [while True] loop of [find_skeleton], run for at most [fuel]
    rounds: [None] when the rounds are used up before the loop returns.
    The buffers [eroded] and [temp] are overwritten in every round, so
    only [thresh], [skeleton] and [iters] are carried along. *)
Fixpoint find_skeleton_loop (fuel : nat) (thresh skeleton : image)
  (iters : nat) : option (image * nat) :=
  match fuel with
  | O => None
  | S fuel' =>
      let eroded := erode thresh in
      let temp := dilate eroded in
      let temp := subtract thresh temp in
      let skeleton := bitwise_or skeleton temp in
      let thresh := eroded in
      let iters := (iters + 1)%nat in
      if (countNonZero thresh =? 0)%nat then Some (skeleton, iters)
      else find_skeleton_loop fuel' thresh skeleton iters
  end.

Definition find_skeleton (fuel : nat) (img : image) : option (image * nat) :=
  let skeleton := zeros (height img) (width img) in
  let thresh := threshold img in
  find_skeleton_loop fuel thresh skeleton 0.

(** A rectangular image of [h] rows and [w] columns. *)
Definition shaped (h w : nat) (img : image) : Prop :=
  length img = h /\ Forall (fun row => length row = w) img.

(** Pixel [(i, j)] lies in an image of [h] rows and [w] columns. *)
Definition inside (h w : nat) (i j : Z) : Prop :=
  0 <= i < Z.of_nat h /\ 0 <= j < Z.of_nat w.

(** The number of foreground pixels in row [i] of [build h w f]. *)
Definition row_count (w : nat) (f : Z -> Z -> Z) (i : nat) : nat :=
  length (filter (fun j => negb (f (Z.of_nat i) (Z.of_nat j) =? 0))
            (seq 0 w)).

(** Every pixel of the image is foreground once thresholded. *)
Definition all_foreground (img : image) : Prop :=
  forall i j : nat,
    (i < height img)%nat -> (j < width img)%nat ->
    127 < px 0 img (Z.of_nat i) (Z.of_nat j).

End Image.

(** ** The specification's vocabulary *)

(** What the specification calls normalisation: a negative angle has a full
    turn added, and the result is clamped to the full turn. *)
Definition normalized (theta : R) : R :=
  Rmax 0 (Rmin (2 * PI) (if Rlt_dec theta 0 then theta + 2 * PI else theta)).

(** What the specification calls the signed circular difference of [a] and
    [b]: the representative of [a - b] in [(-PI, PI]]. *)
Definition circular_difference (a b d : R) : Prop :=
  - PI < d <= PI /\ exists k : Z, d = a - b + 2 * PI * IZR k.

(** A segment is near the pivot when its distance to it is a number below
    the cutoff. *)
Definition near_pivot (s : segment) (image_center : point) (cutoff : Z)
  : Prop :=
  exists d, pivot_distance s image_center = Fin d /\ d < IZR cutoff.

(** The orientation angle [filter_lines] gives a segment. *)
Definition orientation (s : segment) : R :=
  line_angle (sx1 s, sy1 s) (sx2 s, sy2 s).

(** What the search for the longest line has found after a prefix [seen]
    of the list: nothing as long as no flag is set, and otherwise the first
    of the longest flagged segments. *)
Definition longest_inv (seen : list flagged) (acc : option (R * flagged))
  : Prop :=
  match acc with
  | None => forall x, In x seen -> fst x = false
  | Some (md, m) =>
      In m seen /\ fst m = true /\ md = segment_length (snd m) /\
      forall x, In x seen -> fst x = true -> segment_length (snd x) <= md
  end.

(** The same segment with its two endpoints exchanged. *)
Definition reverse_segment (s : segment) : segment :=
  mkSeg (sx2 s) (sy2 s) (sx1 s) (sy1 s).

(** The flag the first loop of [filter_lines] gives a segment. *)
Definition near_flag (image_center : point) (cutoff : Z) (s : segment)
  : bool :=
  np_lt (pivot_distance s image_center) (IZR cutoff).

(** ** Keyboard control and the main loop *)

(** Python's [ord]. *)
Definition ord (c : ascii) : Z := Z.of_N (N_of_ascii c).

(** What the keyboard handler can change: the function attributes of
    [get_measurement] and of [calc_mm], and the module global
    [c_center_offset]. *)
Record controls : Type := mkControls {
  k_gm : gm_static;
  k_calc : calc_static;
  k_center_offset : Z * Z
}.

(** The outcome of [process_key]: [common.QuitException] is raised, or a
    boolean is returned. *)
Inductive key_outcome : Type :=
| Quit
| Returned (handled : bool) (c : controls).

Definition set_pause_updates (gs : gm_static) (b : bool) : gm_static :=
  mkGmStatic (theta_b_l gs) (theta_r_l gs) b (save gs) (record gs)
    (record_ind gs) (debug_view gs) (standalone gs).

Definition set_record (gs : gm_static) (b : bool) : gm_static :=
  mkGmStatic (theta_b_l gs) (theta_r_l gs) (pause_updates gs) (save gs) b
    (record_ind gs) (debug_view gs) (standalone gs).

Definition set_save (gs : gm_static) (b : bool) : gm_static :=
  mkGmStatic (theta_b_l gs) (theta_r_l gs) (pause_updates gs) b (record gs)
    (record_ind gs) (debug_view gs) (standalone gs).

Definition set_debug_view (gs : gm_static) (b : bool) : gm_static :=
  mkGmStatic (theta_b_l gs) (theta_r_l gs) (pause_updates gs) (save gs)
    (record gs) (record_ind gs) b (standalone gs).

Definition set_standalone (gs : gm_static) (b : bool) : gm_static :=
  mkGmStatic (theta_b_l gs) (theta_r_l gs) (pause_updates gs) (save gs)
    (record gs) (record_ind gs) (debug_view gs) b.

(** [process_key]; the line it prints after an arrow key is left out. *)
Definition process_key (c : controls) (key : Z) : key_outcome :=
  let gs := k_gm c in
  let cs := k_calc c in
  let off := k_center_offset c in
  if (key =? ord "p")%Z then
    Returned true
      (mkControls (set_pause_updates gs (negb (pause_updates gs))) cs off)
  else if (key =? ord "r")%Z then
    Returned true (mkControls (set_record gs (negb (record gs))) cs off)
  else if (key =? ord "s")%Z then
    Returned true (mkControls (set_save gs true) cs off)
  else if (key =? ord "d")%Z then
    Returned true
      (mkControls (set_debug_view gs (negb (debug_view gs))) cs off)
  else if (key =? ord "z")%Z then
    if tare_on cs then Returned true (mkControls gs (mkCalcStatic [] false) off)
    else Returned true (mkControls gs (mkCalcStatic [] true) off)
  else if ((81 <=? key) && (key <=? 84))%Z then
    let off :=
      if (key =? 81)%Z then (fst off - 1, snd off)%Z
      else if (key =? 82)%Z then (fst off, snd off - 1)%Z
      else if (key =? 83)%Z then (fst off + 1, snd off)%Z
      else if (key =? 84)%Z then (fst off, snd off + 1)%Z
      else off in
    Returned true (mkControls gs cs off)
  else if ((key =? 27) || (key =? ord "q"))%Z then Quit
  else if (0 <=? key)%Z then Returned false c
  else Returned true c.

(** The keys [process_key] has a branch for: [p], [r], [s], [d], [z], the
    four arrow keys, Escape and [q]. *)
Definition known_key (key : Z) : Prop :=
  key = 112%Z \/ key = 114%Z \/ key = 115%Z \/ key = 100%Z \/ key = 122%Z
  \/ (81 <= key <= 84)%Z \/ key = 27%Z \/ key = 113%Z.

Section MainLoop.

(** The default capacity of [common.append_v], as in [get_measurement]. *)
Variable K : nat.

(** One round of the loop of [main], with the frame the camera delivers and
    the value [cv2.waitKey] returns: [None] when the round raises
    [common.QuitException], and otherwise the controls after the round; in
    both cases with the measurement of the round. *)
Definition main_round (c : controls) (f : frame) (wait_key : Z)
  : option controls * option R :=
  let '(gs, cs, mm_final) :=
    get_measurement K (k_center_offset c) (k_gm c) (k_calc c) f in
  let c := mkControls gs cs (k_center_offset c) in
  let key := Z.land wait_key 255 in
  match process_key c key with
  | Quit => (None, mm_final)
  | Returned _ c => (Some c, mm_final)
  end.

(** The loop of [main] over the frames and keys of a session: the
    measurements of the rounds made, and the controls when the events run
    out, or [None] when the loop was left before. *)
Fixpoint main_loop (c : controls) (events : list (frame * Z))
  : option controls * list (option R) :=
  match events with
  | [] => (Some c, [])
  | (f, wait_key) :: events =>
      match main_round c f wait_key with
      | (None, mm) => (None, [mm])
      | (Some c, mm) =>
          let '(c, mms) := main_loop c events in
          (c, mm :: mms)
      end
  end.

(** [main], from the attributes the functions have when it is called. *)
Definition main (c : controls) (events : list (frame * Z))
  : option controls * list (option R) :=
  main_loop (mkControls (set_standalone (k_gm c) true) (k_calc c)
               (k_center_offset c)) events.

End MainLoop.

(** The value of [cv2.waitKey], masked as in [main], is one of the two
    keys that leave the loop. *)
Definition quit_key (wait_key : Z) : Prop :=
  Z.land wait_key 255 = 27%Z \/ Z.land wait_key 255 = 113%Z.

(** A pixel value of a binary image. *)
Definition binary (v : Z) : Prop := v = 0%Z \/ v = 255%Z.


(** * Properties *)

(** ** The two-argument arctangent *)

(** Case analysis on the comparisons a definition branches on. *)
Ltac no_dec t :=
  lazymatch t with
  | context [Rlt_dec _ _] => fail
  | context [Rle_dec _ _] => fail
  | context [Req_dec_T _ _] => fail
  | _ => idtac
  end.

Ltac case_Rlt :=
  repeat match goal with
    | |- context [Rlt_dec ?a ?b] => no_dec a; no_dec b; destruct (Rlt_dec a b)
    | |- context [Rle_dec ?a ?b] => no_dec a; no_dec b; destruct (Rle_dec a b)
    | |- context [Req_dec_T ?a ?b] =>
        no_dec a; no_dec b; destruct (Req_dec_T a b)
    end.

Section Atan2.

Lemma Rltb_true (a b : R) : Rltb a b = true <-> a < b.
Proof.
  unfold Rltb; destruct (Rlt_dec a b); split; intros; try easy.
Qed.

Lemma Rltb_false (a b : R) : Rltb a b = false <-> b <= a.
Proof.
  unfold Rltb; destruct (Rlt_dec a b); split; intros; try easy; lra.
Qed.

Lemma atan_neg (t : R) : t < 0 -> atan t < 0.
Proof. intros H; rewrite <- atan_0; now apply atan_increasing. Qed.

Lemma atan_pos (t : R) : 0 < t -> 0 < atan t.
Proof. intros H; rewrite <- atan_0; now apply atan_increasing. Qed.

Lemma div_neg_pos (y x : R) : y < 0 -> x < 0 -> 0 < y / x.
Proof.
  intros Hy Hx; unfold Rdiv.
  replace (y * / x) with ((- y) * / (- x)).
  - apply Rmult_lt_0_compat; [lra | apply Rinv_0_lt_compat; lra].
  - rewrite Rinv_opp; ring.
Qed.

Lemma div_nonneg_neg (y x : R) : 0 <= y -> x < 0 -> y / x <= 0.
Proof.
  intros Hy Hx; unfold Rdiv.
  replace (y * / x) with (- (y * / (- x))).
  - assert (0 < / (- x)) by (apply Rinv_0_lt_compat; lra).
    assert (0 <= y * / (- x)) by (apply Rmult_le_pos; lra).
    lra.
  - rewrite Rinv_opp; ring.
Qed.

(** [atan2] takes its values in [(-PI, PI]]. *)
Lemma atan2_bounds (y x : R) : - PI < atan2 y x <= PI.
Proof.
  pose proof PI_RGT_0 as Hpi.
  unfold atan2.
  destruct (Rlt_dec 0 x) as [Hx | Hx].
  - pose proof (atan_bound (y / x)); lra.
  - destruct (Rlt_dec x 0) as [Hx' | Hx'].
    + destruct (Rlt_dec y 0) as [Hy | Hy].
      * pose proof (atan_bound (y / x)).
        pose proof (atan_pos _ (div_neg_pos _ _ Hy Hx')). lra.
      * pose proof (atan_bound (y / x)).
        assert (Hq : y / x <= 0) by (apply div_nonneg_neg; lra).
        destruct Hq as [Hq | Hq].
        -- pose proof (atan_neg _ Hq); lra.
        -- rewrite Hq, atan_0; lra.
    + destruct (Rlt_dec 0 y); [lra |].
      destruct (Rlt_dec y 0); lra.
Qed.

Lemma tan_shift_PI (t : R) : cos t <> 0 -> tan (t + PI) = tan t.
Proof.
  intros Hc; unfold tan; rewrite neg_sin, neg_cos.
  field; exact Hc.
Qed.

(** On [(-PI, PI]], [atan2] recovers an angle from its sine and cosine. *)
Lemma atan2_sin_cos (t : R) : - PI < t <= PI -> atan2 (sin t) (cos t) = t.
Proof.
  intros [Hlo Hhi].
  pose proof PI_RGT_0 as Hpi.
  unfold atan2.
  destruct (Rlt_dec 0 (cos t)) as [Hc | Hc].
  - (* the right half plane *)
    assert (Ht : - (PI / 2) < t < PI / 2).
    { split.
      - destruct (Rlt_dec (- (PI / 2)) t) as [|Hn]; [assumption |].
        exfalso.
        assert (cos (- t) <= 0) by (apply cos_le_0; lra).
        rewrite cos_neg in *; lra.
      - destruct (Rlt_dec t (PI / 2)) as [|Hn]; [assumption |].
        exfalso.
        assert (cos t <= 0) by (apply cos_le_0; lra).
        lra. }
    change (sin t / cos t) with (tan t).
    now apply atan_tan.
  - destruct (Rlt_dec (cos t) 0) as [Hc' | Hc'].
    + assert (Ht : t < - (PI / 2) \/ PI / 2 < t).
      { destruct (Rlt_dec t (- (PI / 2))); [now left |].
        destruct (Rlt_dec (PI / 2) t); [now right |].
        exfalso.
        assert (0 <= cos t) by (apply cos_ge_0; lra).
        lra. }
      change (sin t / cos t) with (tan t).
      destruct Ht as [Ht | Ht].
      * assert (Hs : sin t < 0) by (apply sin_lt_0_var; lra).
        destruct (Rlt_dec (sin t) 0); [| lra].
        rewrite <- tan_shift_PI by lra.
        rewrite atan_tan by lra. lra.
      * assert (Hs : 0 <= sin t) by (apply sin_ge_0; lra).
        destruct (Rlt_dec (sin t) 0); [lra |].
        assert (Hc2 : cos (t - PI) <> 0).
        { replace (cos t) with (cos ((t - PI) + PI)) in Hc' by (f_equal; ring).
          rewrite neg_cos in Hc'. lra. }
        replace (tan t) with (tan ((t - PI) + PI)) by (f_equal; ring).
        rewrite tan_shift_PI by exact Hc2.
        rewrite atan_tan by lra. lra.
    + assert (Hz : cos t = 0) by lra.
      assert (Ht : t = - (PI / 2) \/ t = PI / 2).
      { destruct (Rlt_dec t (- (PI / 2))).
        - exfalso.
          assert (cos (- t) < 0) by (apply cos_lt_0; lra).
          rewrite cos_neg in *; lra.
        - destruct (Rlt_dec (PI / 2) t).
          + exfalso.
            assert (cos t < 0) by (apply cos_lt_0; lra). lra.
          + destruct (Rlt_dec (- (PI / 2)) t); [| left; lra].
            destruct (Rlt_dec t (PI / 2)); [| right; lra].
            exfalso.
            assert (0 < cos t) by (apply cos_gt_0; lra). lra. }
      destruct Ht as [-> | ->].
      * rewrite sin_neg, sin_PI2. case_Rlt; lra.
      * rewrite sin_PI2. case_Rlt; lra.
Qed.

Lemma sin_period_Z (x : R) (k : Z) : sin (x + 2 * PI * IZR k) = sin x.
Proof.
  destruct (Z_le_gt_dec 0 k) as [Hk | Hk].
  - rewrite <- (Z2Nat.id k Hk), <- INR_IZR_INZ.
    replace (x + 2 * PI * INR (Z.to_nat k))
      with (x + 2 * INR (Z.to_nat k) * PI) by ring.
    apply sin_period.
  - rewrite <- (sin_period (x + 2 * PI * IZR k) (Z.to_nat (- k))).
    f_equal.
    rewrite INR_IZR_INZ, Z2Nat.id by lia.
    rewrite opp_IZR; ring.
Qed.

Lemma cos_period_Z (x : R) (k : Z) : cos (x + 2 * PI * IZR k) = cos x.
Proof.
  destruct (Z_le_gt_dec 0 k) as [Hk | Hk].
  - rewrite <- (Z2Nat.id k Hk), <- INR_IZR_INZ.
    replace (x + 2 * PI * INR (Z.to_nat k))
      with (x + 2 * INR (Z.to_nat k) * PI) by ring.
    apply cos_period.
  - rewrite <- (cos_period (x + 2 * PI * IZR k) (Z.to_nat (- k))).
    f_equal.
    rewrite INR_IZR_INZ, Z2Nat.id by lia.
    rewrite opp_IZR; ring.
Qed.

(** Every angle has a representative in [(-PI, PI]]. *)
Lemma principal_representative (t : R) :
  exists k : Z, - PI < t + 2 * PI * IZR k <= PI.
Proof.
  pose proof PI_RGT_0 as Hpi.
  set (r := - (t + PI) / (2 * PI)).
  exists (up r).
  destruct (archimed r) as [H1 H2].
  assert (Hr : r * (2 * PI) = - (t + PI)) by (unfold r; field; lra).
  split; nra.
Qed.

(** [difference_of_angles] is the signed circular difference: the
    representative of [theta1 - theta2] in [(-PI, PI]]. *)
Lemma difference_of_angles_spec (theta1 theta2 : R) :
  - PI < difference_of_angles theta1 theta2 <= PI /\
  exists k : Z,
    difference_of_angles theta1 theta2 = theta1 - theta2 + 2 * PI * IZR k.
Proof.
  unfold difference_of_angles.
  split; [apply atan2_bounds |].
  destruct (principal_representative (theta1 - theta2)) as [k Hk].
  exists k.
  rewrite <- (sin_period_Z (theta1 - theta2) k).
  rewrite <- (cos_period_Z (theta1 - theta2) k).
  now apply atan2_sin_cos.
Qed.

Lemma difference_of_angles_small (theta1 theta2 : R) :
  - PI < theta1 - theta2 <= PI ->
  difference_of_angles theta1 theta2 = theta1 - theta2.
Proof. intros H; unfold difference_of_angles; now apply atan2_sin_cos. Qed.

Lemma difference_of_angles_same (theta : R) :
  difference_of_angles theta theta = 0.
Proof.
  pose proof PI_RGT_0.
  rewrite difference_of_angles_small; lra.
Qed.

End Atan2.

(** ** Circular mean *)

Section MeanAngles.

Lemma np_mean_single (x : R) : np_mean [x] = Some x.
Proof. simpl. f_equal. field. Qed.

Lemma mean_angles_single (theta : R) :
  mean_angles [theta] = Some (atan2 (sin theta) (cos theta)).
Proof.
  unfold mean_angles. simpl map. now rewrite !np_mean_single.
Qed.

Lemma mean_angles_nonempty (lst : list R) :
  lst <> [] ->
  exists s c, mean_angles lst = Some (atan2 s c).
Proof.
  destruct lst as [| x l]; [easy |]. intros _.
  unfold mean_angles. simpl. eauto.
Qed.

End MeanAngles.

(** ** Normalisation of the angles in [calc_mm] *)

Section Normalisation.

Lemma normalized_range (theta : R) :
  0 <= normalized theta <= 2 * PI /\
  (2 * PI <= theta -> normalized theta = 2 * PI).
Proof.
  pose proof PI_RGT_0.
  unfold normalized, Rmax, Rmin.
  case_Rlt; repeat split; intros; lra.
Qed.

Lemma calc_mm_body_theta_b (theta_b theta_r : R) :
  l_theta_b (calc_mm_body theta_b theta_r) = normalized theta_b.
Proof.
  pose proof PI_RGT_0.
  unfold calc_mm_body, normalized, py_max, py_min, Rltb, Rmax, Rmin; simpl.
  case_Rlt; lra.
Qed.

Lemma calc_mm_body_theta_r (theta_b theta_r : R) :
  l_theta_r (calc_mm_body theta_b theta_r) = normalized theta_r.
Proof.
  pose proof PI_RGT_0.
  unfold calc_mm_body, normalized, py_max, py_min, Rltb, Rmax, Rmin; simpl.
  case_Rlt; lra.
Qed.

End Normalisation.

(** ** The claims about the circular mean and the calibration *)

Lemma mean_angles_three_quarters :
  mean_angles [3 * (PI / 2)] = Some (- (PI / 2)).
Proof.
  pose proof PI_RGT_0 as Hpi.
  rewrite mean_angles_single, sin_3PI2, cos_3PI2.
  unfold atan2. case_Rlt; try lra. reflexivity.
Qed.

(** C4, as the specification words it, fails at three quarters of a turn:
    the circular mean of that single angle is minus a quarter turn. *)
Lemma mean_angles_single_counterexample :
  0 <= 3 * (PI / 2) < 2 * PI /\
  mean_angles [3 * (PI / 2)] = Some (- (PI / 2)) /\
  mean_angles [3 * (PI / 2)] <> Some (3 * (PI / 2)).
Proof.
  pose proof PI_RGT_0 as Hpi.
  split; [lra |]. split; [exact mean_angles_three_quarters |].
  rewrite mean_angles_three_quarters. intros Heq. injection Heq as Heq. lra.
Qed.

(** C4 (amended): the circular mean of a single angle of [0, 2 PI) is that
    angle up to [PI], and the angle less a full turn above [PI]. *)
Theorem mean_angles_single_principal (theta : R) :
  0 <= theta < 2 * PI ->
  mean_angles [theta]
  = Some (if Rle_dec theta PI then theta else theta - 2 * PI).
Proof.
  intros [Hlo Hhi]. pose proof PI_RGT_0 as Hpi.
  rewrite mean_angles_single. f_equal.
  destruct (Rle_dec theta PI) as [Hle | Hgt].
  - apply atan2_sin_cos; lra.
  - rewrite <- (sin_period_Z theta (-1)), <- (cos_period_Z theta (-1)).
    replace (theta + 2 * PI * -1) with (theta - 2 * PI) by ring.
    apply atan2_sin_cos; lra.
Qed.

Lemma mean_angles_single_principal_witness :
  mean_angles [PI / 2]
  = Some (if Rle_dec (PI / 2) PI then PI / 2 else PI / 2 - 2 * PI).
Proof.
  apply (mean_angles_single_principal (PI / 2)).
  pose proof PI_RGT_0. lra.
Defined.

(** C9, as the specification words it, fails in double precision on the
    angle of a pointer that points straight up: it lies in [-PI, PI] and is
    negative, and adding [math.pi * 2] to it rounds to [math.pi * 2], so
    that the normalisation takes it to the upper end of the clamp, which is
    not below a full turn, whichever of the two arguments it is passed
    as. *)
Lemma mean_angles_normalization_counterexample :
  let t := Doubles.straight_up in
  let '(theta_b, theta_r, _, _) := Doubles.calc_mm_linear t t in
  PrimFloat.leb (PrimFloat.opp Doubles.math_pi) t = true /\
  PrimFloat.ltb t PrimFloat.zero = true /\
  theta_b = PrimFloat.mul Doubles.math_pi PrimFloat.two /\
  theta_r = PrimFloat.mul Doubles.math_pi PrimFloat.two /\
  PrimFloat.ltb theta_b (PrimFloat.mul Doubles.math_pi PrimFloat.two)
  = false /\
  PrimFloat.ltb theta_r (PrimFloat.mul Doubles.math_pi PrimFloat.two)
  = false.
Proof. repeat split. Qed.

(** C9 (amended): the circular mean of a non-empty list lies in [-PI, PI];
    it can be negative, and the normalisation of [calc_mm] takes it into
    the closed interval [0, 2 PI], whichever of the two arguments it is
    passed as. *)
Theorem mean_angles_range :
  (forall lst : list R,
      lst <> [] ->
      exists theta,
        mean_angles lst = Some theta /\
        - PI <= theta <= PI /\
        forall other,
          0 <= l_theta_b (calc_mm_body theta other) <= 2 * PI /\
          0 <= l_theta_r (calc_mm_body other theta) <= 2 * PI) /\
  (exists lst theta, mean_angles lst = Some theta /\ theta < 0).
Proof.
  split.
  - intros lst Hne.
    destruct (mean_angles_nonempty lst Hne) as (s & c & Hm).
    exists (atan2 s c). split; [exact Hm |].
    pose proof (atan2_bounds s c) as Hb.
    assert (Hr : - PI <= atan2 s c <= PI) by lra.
    split; [exact Hr |].
    intros other.
    rewrite calc_mm_body_theta_b, calc_mm_body_theta_r.
    split; apply normalized_range.
  - exists [3 * (PI / 2)], (- (PI / 2)).
    split; [exact mean_angles_three_quarters |].
    pose proof PI_RGT_0. lra.
Qed.

Lemma mean_angles_range_witness :
  exists theta,
    mean_angles [0; PI] = Some theta /\
    - PI <= theta <= PI /\
    forall other,
      0 <= l_theta_b (calc_mm_body theta other) <= 2 * PI /\
      0 <= l_theta_r (calc_mm_body other theta) <= 2 * PI.
Proof.
  apply (proj1 mean_angles_range [0; PI]).
  discriminate.
Defined.

(** C7, as the specification words it, fails for an input of a full turn:
    the clamp leaves it at [2 PI], outside [0, 2 PI). *)
Lemma calc_mm_normalization_counterexample :
  l_theta_b (calc_mm_body (2 * PI) 0) = 2 * PI /\
  ~ (0 <= l_theta_b (calc_mm_body (2 * PI) 0) < 2 * PI).
Proof.
  assert (H : l_theta_b (calc_mm_body (2 * PI) 0) = 2 * PI).
  { rewrite calc_mm_body_theta_b.
    apply (normalized_range (2 * PI)). lra. }
  split; [exact H |]. rewrite H. lra.
Qed.

Lemma calc_mm_body_facts (theta_b theta_r : R) :
  let l := calc_mm_body theta_b theta_r in
  l_theta_b l = normalized theta_b /\
  l_theta_r l = normalized theta_r /\
  0 <= l_theta_b l <= 2 * PI /\
  0 <= l_theta_r l <= 2 * PI /\
  l_mm_b l = l_theta_b l / (2 * PI) /\
  l_mm_r l
  = (l_theta_r l - c_red_angle_start) / (c_red_angle_end - c_red_angle_start)
    * c_haimer_ball_diam.
Proof.
  pose proof PI_RGT_0 as Hpi.
  cbv zeta.
  rewrite calc_mm_body_theta_b, calc_mm_body_theta_r.
  destruct (normalized_range theta_b) as (Hb1 & _).
  destruct (normalized_range theta_r) as (Hr1 & _).
  split; [reflexivity |]. split; [reflexivity |].
  split; [exact Hb1 |]. split; [exact Hr1 |].
  split.
  - change (l_mm_b (calc_mm_body theta_b theta_r))
      with (l_theta_b (calc_mm_body theta_b theta_r) / (PI * 2) * 1).
    rewrite calc_mm_body_theta_b. field. lra.
  - change (l_mm_r (calc_mm_body theta_b theta_r))
      with ((l_theta_r (calc_mm_body theta_b theta_r) - c_red_angle_start)
            / (c_red_angle_end - c_red_angle_start) * c_haimer_ball_diam).
    now rewrite calc_mm_body_theta_r.
Qed.

(** C7 (amended): the angles the two linear formulas of [calc_mm] consume
    are the inputs with a full turn added when negative and then clamped to
    the closed interval [0, 2 PI]. *)
Theorem calc_mm_normalizes (theta_b theta_r : R) :
  let l := calc_mm_body theta_b theta_r in
  l_theta_b l = normalized theta_b /\
  l_theta_r l = normalized theta_r /\
  0 <= l_theta_b l <= 2 * PI /\
  0 <= l_theta_r l <= 2 * PI /\
  l_mm_b l = l_theta_b l / (2 * PI) /\
  l_mm_r l
  = (l_theta_r l - c_red_angle_start) / (c_red_angle_end - c_red_angle_start)
    * c_haimer_ball_diam.
Proof. exact (calc_mm_body_facts theta_b theta_r). Qed.

(** C1, as the specification words it, fails in double precision on the
    smoothed angle of a black pointer that points straight up: the angle is
    negative, adding [math.pi * 2] to it rounds to [math.pi * 2], and the
    normalised angle is the upper end of the clamp, not below a full turn;
    [mm_b] is 1.0. *)
Lemma calc_mm_smoothed_counterexample :
  let t := Doubles.straight_up in
  let '(theta_b, _, mm_b, _) := Doubles.calc_mm_linear t PrimFloat.zero in
  PrimFloat.leb (PrimFloat.opp Doubles.math_pi) t = true /\
  PrimFloat.leb t Doubles.math_pi = true /\
  PrimFloat.ltb theta_b (PrimFloat.mul Doubles.math_pi PrimFloat.two)
  = false /\
  theta_b = PrimFloat.mul Doubles.math_pi PrimFloat.two /\
  mm_b = PrimFloat.one.
Proof. repeat split. Qed.

(** C1 (amended): [calc_mm] normalises the two angles into the closed
    interval [0, 2 PI] and returns [mm_black], [mm_red] and
    [mm_final = mm_red + offset - ball_diameter / 2], where the offset times
    [2 PI] is the signed circular difference between the normalised black
    angle and the fractional part of [mm_red] taken as an angle. *)
Theorem calc_mm_formulas (st : calc_static) (theta_black theta_red : R) :
  let nb := normalized theta_black in
  let nr := normalized theta_red in
  let mm_black := nb / (2 * PI) in
  let mm_red :=
    (nr - c_red_angle_start) / (c_red_angle_end - c_red_angle_start)
    * c_haimer_ball_diam in
  0 <= nb <= 2 * PI /\
  0 <= nr <= 2 * PI /\
  exists d,
    circular_difference nb (modf_frac mm_red * (2 * PI)) d /\
    snd (calc_mm st theta_black theta_red)
    = (mm_red + d / (2 * PI) - c_haimer_ball_diam / 2, mm_black, mm_red).
Proof.
  cbv zeta.
  pose proof PI_RGT_0 as Hpi.
  split; [apply normalized_range |].
  split; [apply normalized_range |].
  destruct (calc_mm_body_facts theta_black theta_red)
    as (Eb & Er & _ & _ & Emb & Emr).
  set (l := calc_mm_body theta_black theta_red) in *.
  exists (l_theta_d l). split.
  - replace (l_theta_d l)
      with (difference_of_angles (l_theta_b l) (modf_frac (l_mm_r l) * PI * 2))
      by reflexivity.
    rewrite Emr, Er, Eb.
    replace (modf_frac
               ((normalized theta_red - c_red_angle_start)
                / (c_red_angle_end - c_red_angle_start) * c_haimer_ball_diam)
             * PI * 2)
      with (modf_frac
              ((normalized theta_red - c_red_angle_start)
               / (c_red_angle_end - c_red_angle_start) * c_haimer_ball_diam)
            * (2 * PI)) by ring.
    apply difference_of_angles_spec.
  - unfold calc_mm. destruct (tare_on st); simpl snd; fold l.
    + rewrite <- Er, <- Emr, <- Eb, <- Emb. reflexivity.
    + rewrite <- Er, <- Emr, <- Eb, <- Emb. reflexivity.
Qed.

(** C8: the triple [calc_mm] returns is the same whatever the tare flag and
    the content of the tare accumulator. *)
Theorem calc_mm_tare_independent (st1 st2 : calc_static)
  (theta_b theta_r : R) :
  snd (calc_mm st1 theta_b theta_r) = snd (calc_mm st2 theta_b theta_r).
Proof.
  unfold calc_mm.
  destruct (tare_on st1), (tare_on st2); reflexivity.
Qed.

(** ** Calibration scenarios of the specification *)

Section Scenarios.

Lemma Int_part_IZR (z : Z) : Int_part (IZR z) = z.
Proof. symmetry; apply Int_part_spec; lra. Qed.

Lemma modf_frac_IZR (z : Z) : (0 <= z)%Z -> modf_frac (IZR z) = 0.
Proof.
  intros Hz. unfold modf_frac, trunc.
  destruct (Rle_dec 0 (IZR z)) as [_ | Hn].
  - rewrite Int_part_IZR; ring.
  - exfalso; apply Hn; now apply IZR_le.
Qed.

Lemma calc_mm_result (st : calc_static) (theta_b theta_r : R) :
  snd (calc_mm st theta_b theta_r)
  = (l_mm_final (calc_mm_body theta_b theta_r),
     l_mm_b (calc_mm_body theta_b theta_r),
     l_mm_r (calc_mm_body theta_b theta_r)).
Proof. unfold calc_mm. destruct (tare_on st); reflexivity. Qed.

Lemma PI_gt_3 : 3 < PI.
Proof. pose proof PI2_3_2; lra. Qed.

(** Both hands at the start of their travel. *)
Example calibration_scenario_1 (st : calc_static) :
  snd (calc_mm st 0 c_red_angle_start) = (-2, 0, 0).
Proof.
  pose proof PI_gt_3 as Hpi.
  rewrite calc_mm_result.
  destruct (calc_mm_body_facts 0 c_red_angle_start)
    as (Eb & Er & _ & _ & Emb & Emr).
  set (l := calc_mm_body 0 c_red_angle_start) in *.
  assert (Nb : normalized 0 = 0).
  { unfold normalized, Rmax, Rmin. case_Rlt; lra. }
  assert (Nr : normalized c_red_angle_start = c_red_angle_start).
  { unfold normalized, Rmax, Rmin, c_red_angle_start. case_Rlt; lra. }
  assert (Hr : l_mm_r l = 0).
  { rewrite Emr, Er, Nr.
    unfold c_red_angle_end, c_red_angle_start, c_haimer_ball_diam. lra. }
  assert (Hb : l_mm_b l = 0).
  { rewrite Emb, Eb, Nb. unfold Rdiv. ring. }
  assert (Hf : l_mm_final l = -2).
  { change (l_mm_final l)
      with (l_mm_r l
            + difference_of_angles (l_theta_b l)
                (modf_frac (l_mm_r l) * PI * 2) / (2 * PI)
            - c_haimer_ball_diam / 2).
    rewrite Hr, Eb, Nb, (modf_frac_IZR 0) by lia.
    replace (0 * PI * 2) with 0 by ring.
    rewrite difference_of_angles_same.
    unfold c_haimer_ball_diam. field. lra. }
  now rewrite Hf, Hb, Hr.
Qed.

(** The fine hand at a quarter turn, the coarse hand at half its span. *)
Example calibration_scenario_2 (st : calc_static) :
  snd (calc_mm st (PI / 2)
         (c_red_angle_start + 0.5 * (c_red_angle_end - c_red_angle_start)))
  = (0.25, 0.25, 2).
Proof.
  pose proof PI_gt_3 as Hpi. pose proof PI_4 as Hpi4.
  rewrite calc_mm_result.
  set (tr := c_red_angle_start + 0.5 * (c_red_angle_end - c_red_angle_start)).
  destruct (calc_mm_body_facts (PI / 2) tr)
    as (Eb & Er & _ & _ & Emb & Emr).
  set (l := calc_mm_body (PI / 2) tr) in *.
  assert (Nb : normalized (PI / 2) = PI / 2).
  { unfold normalized, Rmax, Rmin. case_Rlt; lra. }
  assert (Nr : normalized tr = tr).
  { unfold normalized, Rmax, Rmin, tr, c_red_angle_end, c_red_angle_start.
    case_Rlt; lra. }
  assert (Hr : l_mm_r l = 2).
  { rewrite Emr, Er, Nr.
    unfold tr, c_red_angle_end, c_red_angle_start, c_haimer_ball_diam. lra. }
  assert (Hb : l_mm_b l = 0.25).
  { rewrite Emb, Eb, Nb. replace 0.25 with (1 / 4) by lra. field. lra. }
  assert (Hf : l_mm_final l = 0.25).
  { change (l_mm_final l)
      with (l_mm_r l
            + difference_of_angles (l_theta_b l)
                (modf_frac (l_mm_r l) * PI * 2) / (2 * PI)
            - c_haimer_ball_diam / 2).
    rewrite Hr, Eb, Nb, (modf_frac_IZR 2) by lia.
    replace (0 * PI * 2) with 0 by ring.
    rewrite difference_of_angles_small by lra.
    unfold c_haimer_ball_diam. replace 0.25 with (1 / 4) by lra.
    field. lra. }
  now rewrite Hf, Hb, Hr.
Qed.

End Scenarios.

(** ** Line filtering *)

Section FilterLines.

Variable image_center : point.
Variable cutoff : Z.

(** The flag the first loop gives a segment. *)
Abbreviation flag s := (np_lt (pivot_distance s image_center) (IZR cutoff)).

Lemma distance_dividend_nonneg (s : segment) :
  0 <= IZR (distance_dividend s image_center).
Proof.
  apply IZR_le. unfold distance_dividend.
  destruct image_center. apply Z.abs_nonneg.
Qed.

(** The first loop marks exactly the segments near the pivot. *)
Lemma flag_true_iff (s : segment) :
  flag s = true <-> near_pivot s image_center cutoff.
Proof.
  unfold near_pivot, pivot_distance, np_div.
  pose proof (distance_dividend_nonneg s) as Hn.
  split.
  - case_Rlt; simpl; intros H; try discriminate; try lra;
      apply Rltb_true in H; eauto.
  - intros (d & Hd & Hlt). revert Hd.
    case_Rlt; intros Hd; try discriminate;
      injection Hd as <-; simpl; now apply Rltb_true.
Qed.

Lemma flag_false_iff (s : segment) :
  flag s = false <-> ~ near_pivot s image_center cutoff.
Proof.
  rewrite <- flag_true_iff.
  destruct (np_lt (pivot_distance s image_center) (IZR cutoff));
    split; intros H; try easy.
Qed.

Lemma longest_step_inv (seen : list flagged) (acc : option (R * flagged))
  (x : flagged) :
  longest_inv seen acc -> longest_inv (seen ++ [x]) (longest_step acc x).
Proof.
  intros Hinv. destruct x as [inc s]. unfold longest_step.
  destruct inc.
  - destruct acc as [[md m] |]; simpl in Hinv.
    + destruct Hinv as (Hin & Hf & Hmd & Hmax).
      destruct (Rltb md (segment_length s)) eqn:Hcmp.
      * apply Rltb_true in Hcmp. simpl.
        split; [apply in_or_app; right; now left |].
        split; [reflexivity |]. split; [reflexivity |].
        intros y Hy Hfy. apply in_app_or in Hy as [Hy | [<- | []]].
        -- specialize (Hmax y Hy Hfy). lra.
        -- simpl. lra.
      * apply Rltb_false in Hcmp. simpl.
        split; [apply in_or_app; now left |].
        split; [assumption |]. split; [assumption |].
        intros y Hy Hfy. apply in_app_or in Hy as [Hy | [<- | []]].
        -- now apply Hmax.
        -- simpl. lra.
    + simpl.
      split; [apply in_or_app; right; now left |].
      split; [reflexivity |]. split; [reflexivity |].
      intros y Hy Hfy. apply in_app_or in Hy as [Hy | [<- | []]].
      * rewrite (Hinv y Hy) in Hfy. discriminate.
      * simpl. lra.
  - destruct acc as [[md m] |]; simpl in *.
    + destruct Hinv as (Hin & Hf & Hmd & Hmax).
      split; [apply in_or_app; now left |].
      split; [assumption |]. split; [assumption |].
      intros y Hy Hfy. apply in_app_or in Hy as [Hy | [<- | []]].
      * now apply Hmax.
      * discriminate.
    + intros y Hy. apply in_app_or in Hy as [Hy | [<- | []]].
      * now apply Hinv.
      * reflexivity.
Qed.

Lemma fold_longest_inv (rest seen : list flagged)
  (acc : option (R * flagged)) :
  longest_inv seen acc ->
  longest_inv (seen ++ rest) (fold_left longest_step rest acc).
Proof.
  revert seen acc. induction rest as [| x rest IH]; intros seen acc Hinv.
  - now rewrite app_nil_r.
  - simpl. replace (seen ++ x :: rest) with ((seen ++ [x]) ++ rest)
      by (rewrite <- app_assoc; reflexivity).
    apply IH. now apply longest_step_inv.
Qed.

Lemma longest_line_inv (lines2 : list flagged) :
  longest_inv lines2 (longest_line lines2).
Proof.
  unfold longest_line.
  apply (fold_longest_inv lines2 [] None). simpl. intros x [].
Qed.

Abbreviation lines2_of lines := (first_loop lines image_center cutoff).

Lemma in_lines2 (lines : list segment) (x : flagged) :
  In x (lines2_of lines) <-> In (snd x) lines /\ fst x = flag (snd x).
Proof.
  unfold first_loop. rewrite in_map_iff. split.
  - intros (s & <- & Hs). simpl. auto.
  - intros (Hs & Hf). exists (snd x). split; [| assumption].
    destruct x; simpl in *; now subst.
Qed.

(** Without a segment near the pivot, the second loop finds nothing and
    the result is the list of the first loop. *)
Lemma filter_lines_none_near (lines : list segment) :
  (forall s, In s lines -> ~ near_pivot s image_center cutoff) ->
  longest_line (lines2_of lines) = None /\
  filter_lines lines image_center cutoff
  = map (fun s => (false, s)) lines.
Proof.
  intros Hfar.
  assert (Hl2 : lines2_of lines = map (fun s => (false, s)) lines).
  { unfold first_loop. apply map_ext_in. intros s Hs.
    f_equal. apply flag_false_iff. now apply Hfar. }
  assert (Hnone : longest_line (lines2_of lines) = None).
  { pose proof (longest_line_inv (lines2_of lines)) as Hinv.
    destruct (longest_line (lines2_of lines)) as [[md m] |];
      [| reflexivity].
    destruct Hinv as (Hin & Hf & _).
    rewrite Hl2 in Hin. apply in_map_iff in Hin as (s & <- & _).
    discriminate. }
  split; [exact Hnone |].
  unfold filter_lines. now rewrite Hnone.
Qed.

(** What an included segment of the result went through. *)
Lemma filter_lines_included_inv (lines : list segment) (s : segment) :
  In (true, s) (filter_lines lines image_center cutoff) ->
  In s lines /\ near_pivot s image_center cutoff /\
  exists m,
    In m lines /\ near_pivot m image_center cutoff /\
    (forall s', In s' lines -> near_pivot s' image_center cutoff ->
                segment_length s' <= segment_length m) /\
    Rabs (difference_of_angles (orientation m) (orientation s)) < PI / 8.
Proof.
  unfold filter_lines.
  pose proof (longest_line_inv (lines2_of lines)) as Hinv.
  destruct (longest_line (lines2_of lines)) as [[md m] |]; simpl in Hinv.
  - destruct Hinv as (Hin & Hf & Hmd & Hmax). intros Hs.
    apply in_flat_map in Hs as ([inc s'] & Hx & Hs).
    unfold angle_step in Hs. destruct inc; [| destruct Hs].
    destruct Hs as [Hs | []]. injection Hs as Hcmp <-.
    apply in_lines2 in Hx as (Hs' & Hfs'). simpl in Hs', Hfs'.
    apply in_lines2 in Hin as (Hm & Hfm).
    split; [assumption |].
    split; [now apply flag_true_iff |].
    exists (snd m).
    split; [assumption |].
    split; [apply flag_true_iff; congruence |].
    split.
    + intros s0 Hs0 Hn0. rewrite <- Hmd.
      apply (Hmax (flag s0, s0)).
      * apply in_lines2. simpl. auto.
      * simpl. now apply flag_true_iff.
    + simpl in Hcmp. now apply Rltb_true in Hcmp.
  - intros Hs. specialize (Hinv _ Hs). discriminate.
Qed.

(** A degenerate segment: the two endpoints coincide. *)
Lemma degenerate_distance (s : segment) :
  sx1 s = sx2 s -> sy1 s = sy2 s ->
  distance_divisor s = 0 /\ pivot_distance s image_center = NaN.
Proof.
  intros Hx Hy.
  assert (Hd : distance_divisor s = 0).
  { unfold distance_divisor. rewrite Hx, Hy, !Z.sub_diag. simpl.
    apply sqrt_0. }
  split; [exact Hd |].
  unfold pivot_distance. rewrite Hd.
  assert (Hn : distance_dividend s image_center = 0%Z).
  { unfold distance_dividend. destruct image_center as [x0 y0].
    rewrite Hx, Hy, !Z.sub_diag. simpl.
    replace (sx2 s * sy2 s - sy2 s * sx2 s)%Z with 0%Z by ring.
    reflexivity. }
  rewrite Hn. unfold np_div. case_Rlt; try lra. reflexivity.
Qed.

(** A single segment near the pivot is included. *)
Lemma filter_lines_single (s : segment) :
  near_pivot s image_center cutoff ->
  filter_lines [s] image_center cutoff = [(true, s)].
Proof.
  intros Hn. apply flag_true_iff in Hn.
  unfold filter_lines, first_loop. simpl map. rewrite Hn.
  unfold longest_line. simpl.
  rewrite difference_of_angles_same, Rabs_R0.
  assert (H0 : Rltb 0 (PI / 8) = true).
  { apply Rltb_true. pose proof PI_RGT_0. lra. }
  now rewrite H0.
Qed.

End FilterLines.

(** ** The claims about the line filter and the measurement cycle *)

Section ConcreteSegments.

Lemma sqrt_400 : sqrt 400 = 20.
Proof. apply sqrt_lem_1; lra. Qed.

Lemma sqrt_100 : sqrt 100 = 10.
Proof. apply sqrt_lem_1; lra. Qed.

(** A vertical segment through the pivot is near it. *)
Lemma vertical_through_pivot_near :
  near_pivot (mkSeg 0 (-10) 0 10) (0, 0)%Z 5.
Proof.
  exists 0. unfold pivot_distance.
  replace (distance_dividend (mkSeg 0 (-10) 0 10) (0, 0)%Z) with 0%Z
    by reflexivity.
  replace (distance_divisor (mkSeg 0 (-10) 0 10)) with (sqrt 400)
    by reflexivity.
  rewrite sqrt_400. unfold np_div. case_Rlt; try lra.
  split; [f_equal; lra | lra].
Qed.

(** A vertical segment a hundred pixels to the right of the pivot is
    not. *)
Lemma vertical_far_from_pivot :
  ~ near_pivot (mkSeg 100 0 100 10) (0, 0)%Z 5.
Proof.
  intros (d & Hd & Hlt). unfold pivot_distance in Hd.
  replace (distance_dividend (mkSeg 100 0 100 10) (0, 0)%Z) with 1000%Z
    in Hd by reflexivity.
  replace (distance_divisor (mkSeg 100 0 100 10)) with (sqrt 100)
    in Hd by reflexivity.
  rewrite sqrt_100 in Hd. unfold np_div in Hd. revert Hd.
  case_Rlt; try lra. intros Hd. injection Hd as <-. lra.
Qed.

End ConcreteSegments.

(** C3: a segment [filter_lines] marks as included is near the pivot, and
    its orientation differs by less than [PI / 8], as a signed circular
    difference, from that of the longest segment near the pivot; a segment
    at the cutoff distance or farther is never marked as included. *)
Theorem filter_lines_included (lines : list segment) (image_center : point)
  (cutoff : Z) (s : segment) :
  (In (true, s) (filter_lines lines image_center cutoff) ->
   In s lines /\ near_pivot s image_center cutoff /\
   exists m,
     In m lines /\ near_pivot m image_center cutoff /\
     (forall s', In s' lines -> near_pivot s' image_center cutoff ->
                 segment_length s' <= segment_length m) /\
     Rabs (difference_of_angles (orientation m) (orientation s)) < PI / 8) /\
  (forall d,
      pivot_distance s image_center = Fin d -> IZR cutoff <= d ->
      ~ In (true, s) (filter_lines lines image_center cutoff)).
Proof.
  split.
  - apply filter_lines_included_inv.
  - intros d Hd Hfar Hin.
    apply filter_lines_included_inv in Hin as (_ & (d' & Hd' & Hlt) & _).
    rewrite Hd in Hd'. injection Hd' as <-. lra.
Qed.

Lemma filter_lines_included_witness :
  In (mkSeg 0 (-10) 0 10) [mkSeg 0 (-10) 0 10] /\
  near_pivot (mkSeg 0 (-10) 0 10) (0, 0)%Z 5 /\
  exists m,
    In m [mkSeg 0 (-10) 0 10] /\ near_pivot m (0, 0)%Z 5 /\
    (forall s', In s' [mkSeg 0 (-10) 0 10] -> near_pivot s' (0, 0)%Z 5 ->
                segment_length s' <= segment_length m) /\
    Rabs (difference_of_angles (orientation m)
            (orientation (mkSeg 0 (-10) 0 10))) < PI / 8.
Proof.
  apply (proj1 (filter_lines_included [mkSeg 0 (-10) 0 10] (0, 0)%Z 5
                  (mkSeg 0 (-10) 0 10))).
  rewrite (filter_lines_single _ _ _ vertical_through_pivot_near).
  now left.
Defined.

(** C5, as the specification words it, fails on a segment whose endpoints
    coincide: the divisor of the distance computation is zero there, and the
    division is carried out all the same, giving NaN. *)
Lemma filter_lines_divides_by_zero :
  distance_divisor (mkSeg 3 7 3 7) = 0 /\
  pivot_distance (mkSeg 3 7 3 7) (5, 5)%Z = NaN.
Proof. now apply degenerate_distance. Qed.

(** C5 (amended): nothing guards the division; for a segment whose endpoints
    coincide it divides zero by zero, the distance is NaN, the comparison
    with the cutoff is false, and the segment is never marked as included:
    it is dropped from the result, or kept with a false flag when no segment
    is near the pivot. *)
Theorem filter_lines_degenerate (lines : list segment) (image_center : point)
  (cutoff : Z) (s : segment) :
  sx1 s = sx2 s -> sy1 s = sy2 s ->
  pivot_distance s image_center = NaN /\
  np_lt (pivot_distance s image_center) (IZR cutoff) = false /\
  ~ In (true, s) (filter_lines lines image_center cutoff) /\
  (In (false, s) (filter_lines lines image_center cutoff) ->
   forall s', In s' lines -> ~ near_pivot s' image_center cutoff).
Proof.
  intros Hx Hy.
  destruct (degenerate_distance image_center s Hx Hy) as [_ Hnan].
  split; [exact Hnan |].
  split; [now rewrite Hnan |].
  split.
  - intros Hin.
    apply filter_lines_included_inv in Hin as (_ & (d & Hd & _) & _).
    rewrite Hnan in Hd. discriminate.
  - unfold filter_lines.
    pose proof (longest_line_inv (first_loop lines image_center cutoff))
      as Hinv.
    destruct (longest_line (first_loop lines image_center cutoff))
      as [[md m] |]; simpl in Hinv.
    + intros Hin. exfalso.
      apply in_flat_map in Hin as ([inc s0] & Hx0 & Hs0).
      unfold angle_step in Hs0. destruct inc; [| destruct Hs0].
      destruct Hs0 as [Hs0 | []]. injection Hs0 as Hcmp <-.
      apply in_lines2 in Hx0 as (_ & Hf). simpl in Hf.
      rewrite Hnan in Hf. discriminate.
    + intros _ s' Hs'. apply flag_false_iff.
      apply (Hinv (_, s')). apply in_lines2. simpl. auto.
Qed.

Lemma filter_lines_degenerate_witness :
  pivot_distance (mkSeg 3 7 3 7) (5, 5)%Z = NaN /\
  np_lt (pivot_distance (mkSeg 3 7 3 7) (5, 5)%Z) (IZR 5) = false /\
  ~ In (true, mkSeg 3 7 3 7)
      (filter_lines [mkSeg 3 7 3 7; mkSeg 5 0 5 9] (5, 5)%Z 5) /\
  (In (false, mkSeg 3 7 3 7)
      (filter_lines [mkSeg 3 7 3 7; mkSeg 5 0 5 9] (5, 5)%Z 5) ->
   forall s', In s' [mkSeg 3 7 3 7; mkSeg 5 0 5 9] ->
              ~ near_pivot s' (5, 5)%Z 5).
Proof.
  apply (filter_lines_degenerate [mkSeg 3 7 3 7; mkSeg 5 0 5 9] (5, 5)%Z 5
           (mkSeg 3 7 3 7)); reflexivity.
Defined.

Lemma endpoint_angles_none (lines : list segment) (image_center : point) :
  endpoint_angles (map (fun s => (false, s)) lines) image_center = [].
Proof.
  unfold endpoint_angles. induction lines as [| s l IH]; simpl; auto.
Qed.

(** C10: when no candidate is near the pivot, [filter_lines] returns every
    candidate with a false flag, the search for the longest line finds
    nothing, so that the angle comparison is skipped, and [summarize_lines]
    returns [None] on the result. *)
Theorem filter_lines_nothing_near (lines : list segment)
  (image_center : point) (cutoff : Z) :
  (forall s, In s lines -> ~ near_pivot s image_center cutoff) ->
  filter_lines lines image_center cutoff = map (fun s => (false, s)) lines /\
  longest_line (first_loop lines image_center cutoff) = None /\
  summarize_lines (filter_lines lines image_center cutoff) image_center
  = None.
Proof.
  intros Hfar.
  destruct (filter_lines_none_near image_center cutoff lines Hfar)
    as [Hnone Heq].
  split; [exact Heq |]. split; [exact Hnone |].
  unfold summarize_lines. now rewrite Heq, endpoint_angles_none.
Qed.

Lemma filter_lines_nothing_near_witness :
  filter_lines [mkSeg 100 0 100 10] (0, 0)%Z 5
  = map (fun s => (false, s)) [mkSeg 100 0 100 10] /\
  longest_line (first_loop [mkSeg 100 0 100 10] (0, 0)%Z 5) = None /\
  summarize_lines (filter_lines [mkSeg 100 0 100 10] (0, 0)%Z 5) (0, 0)%Z
  = None.
Proof.
  apply (filter_lines_nothing_near [mkSeg 100 0 100 10] (0, 0)%Z 5).
  intros s [<- | []]. exact vertical_far_from_pivot.
Defined.

Section CycleFacts.

Variable K : nat.
Variable c_center_offset : Z * Z.

(** The histories after the cycle are the histories before it with the
    samples of the frame pushed. *)
Lemma get_measurement_histories (gs : gm_static) (cs : calc_static)
  (f : frame) :
  let gs' := fst (fst (get_measurement K c_center_offset gs cs f)) in
  let image_center := c_image_center c_center_offset (f_w f) (f_h f) in
  theta_b_l gs'
  = append_v (theta_b_l gs) (arrow_common (f_lines_b f) image_center) K /\
  theta_r_l gs'
  = append_v (theta_r_l gs) (arrow_common (f_lines_r f) image_center) K.
Proof.
  cbv zeta. unfold get_measurement.
  destruct (append_v (theta_b_l gs) _ K), (append_v (theta_r_l gs) _ K);
    try (split; reflexivity).
  destruct (mean_angles (r :: l)), (mean_angles (r0 :: l0));
    try (split; reflexivity).
  destruct (calc_mm cs r1 r2) as [[cs' out] [[mf mb] mr]].
  split; reflexivity.
Qed.

Lemma get_measurement_cases (gs : gm_static) (cs : calc_static)
  (f : frame) :
  let r := get_measurement K c_center_offset gs cs f in
  let gs' := fst (fst r) in
  (theta_b_l gs' <> [] /\ theta_r_l gs' <> [] ->
   exists theta_b theta_r,
     mean_angles (theta_b_l gs') = Some theta_b /\
     mean_angles (theta_r_l gs') = Some theta_r /\
     snd r = Some (fst (fst (snd (calc_mm cs theta_b theta_r)))) /\
     snd (fst r) = fst (fst (calc_mm cs theta_b theta_r))) /\
  (theta_b_l gs' = [] \/ theta_r_l gs' = [] ->
   snd r = None /\ snd (fst r) = cs).
Proof.
  cbv zeta. unfold get_measurement.
  destruct (append_v (theta_b_l gs) _ K) as [| b hb] eqn:Hb;
    destruct (append_v (theta_r_l gs) _ K) as [| r hr] eqn:Hr;
    cbn [fst snd theta_b_l theta_r_l].
  - split; [intros [H _]; now contradict H | auto].
  - split; [intros [H _]; now contradict H | auto].
  - split; [intros [_ H]; now contradict H | auto].
  - destruct (mean_angles_nonempty (b :: hb)) as (sb & cb & Hmb);
      [discriminate |].
    destruct (mean_angles_nonempty (r :: hr)) as (sr & cr & Hmr);
      [discriminate |].
    rewrite Hmb, Hmr.
    destruct (calc_mm cs (atan2 sb cb) (atan2 sr cr))
      as [[cs' out] [[mf mb] mr]] eqn:Hc.
    cbn [fst snd theta_b_l theta_r_l]. split.
    + intros _. exists (atan2 sb cb), (atan2 sr cr).
      rewrite Hc. cbn [fst snd]. auto.
    + intros [H | H]; discriminate.
Qed.

End CycleFacts.

(** C2: in every cycle, [get_measurement] pushes the sample of each pointer,
    when the frame gives one, on the history of that pointer; it calls
    [calc_mm] on the circular means of the two histories and returns its
    [mm_final] when both histories are then non-empty, and otherwise
    returns [None] without calling it; so a measurement is returned exactly
    when both are non-empty. *)
Theorem get_measurement_pending (K : nat) (c_center_offset : Z * Z)
  (gs : gm_static) (cs : calc_static) (f : frame) :
  let r := get_measurement K c_center_offset gs cs f in
  let gs' := fst (fst r) in
  let image_center := c_image_center c_center_offset (f_w f) (f_h f) in
  theta_b_l gs'
  = append_v (theta_b_l gs) (arrow_common (f_lines_b f) image_center) K /\
  theta_r_l gs'
  = append_v (theta_r_l gs) (arrow_common (f_lines_r f) image_center) K /\
  (theta_b_l gs' <> [] /\ theta_r_l gs' <> [] ->
   exists theta_b theta_r,
     mean_angles (theta_b_l gs') = Some theta_b /\
     mean_angles (theta_r_l gs') = Some theta_r /\
     snd r = Some (fst (fst (snd (calc_mm cs theta_b theta_r)))) /\
     snd (fst r) = fst (fst (calc_mm cs theta_b theta_r))) /\
  (theta_b_l gs' = [] \/ theta_r_l gs' = [] ->
   snd r = None /\ snd (fst r) = cs) /\
  (snd r <> None <-> theta_b_l gs' <> [] /\ theta_r_l gs' <> []).
Proof.
  cbv zeta.
  destruct (get_measurement_histories K c_center_offset gs cs f)
    as [Hhb Hhr].
  split; [exact Hhb |]. split; [exact Hhr |].
  destruct (get_measurement_cases K c_center_offset gs cs f) as [Hsome Hnone].
  split; [exact Hsome |]. split; [exact Hnone |].
  set (r := get_measurement K c_center_offset gs cs f) in *.
  split.
  - intros Hmm.
    destruct (theta_b_l (fst (fst r))) as [| b hb] eqn:Hb.
    + exfalso. apply Hmm. apply Hnone. now left.
    + destruct (theta_r_l (fst (fst r))) as [| x hr] eqn:Hr.
      * exfalso. apply Hmm. apply Hnone. now right.
      * split; discriminate.
  - intros Hne. destruct (Hsome Hne) as (tb & tr & _ & _ & Hmm & _).
    rewrite Hmm. discriminate.
Qed.

Lemma get_measurement_pending_witness :
  let cs := mkCalcStatic [] false in
  let seen :=
    get_measurement 200 (18, -6)%Z
      (mkGmStatic [0] [c_red_angle_start] false false false 0 false false)
      cs (mkFrame 640 480 None None) in
  let unseen :=
    get_measurement 200 (18, -6)%Z
      (mkGmStatic [] [0] false false false 0 false false)
      cs (mkFrame 640 480 None (Some [mkSeg 100 0 100 10])) in
  (exists theta_b theta_r,
      mean_angles (theta_b_l (fst (fst seen))) = Some theta_b /\
      mean_angles (theta_r_l (fst (fst seen))) = Some theta_r /\
      snd seen = Some (fst (fst (snd (calc_mm cs theta_b theta_r)))) /\
      snd (fst seen) = fst (fst (calc_mm cs theta_b theta_r))) /\
  (snd unseen = None /\ snd (fst unseen) = cs).
Proof.
  cbv zeta. split.
  - apply (proj1 (proj2 (proj2 (get_measurement_pending 200 (18, -6)%Z
             (mkGmStatic [0] [c_red_angle_start] false false false 0 false
                false)
             (mkCalcStatic [] false) (mkFrame 640 480 None None))))).
    destruct (get_measurement_histories 200 (18, -6)%Z
                (mkGmStatic [0] [c_red_angle_start] false false false 0 false
                   false)
                (mkCalcStatic [] false) (mkFrame 640 480 None None))
      as [Hb Hr].
    cbv zeta in Hb, Hr. rewrite Hb, Hr. simpl. split; discriminate.
  - apply (proj1 (proj2 (proj2 (proj2 (get_measurement_pending 200
             (18, -6)%Z
             (mkGmStatic [] [0] false false false 0 false false)
             (mkCalcStatic [] false)
             (mkFrame 640 480 None (Some [mkSeg 100 0 100 10]))))))).
    left. reflexivity.
Defined.

(** ** The morphological skeleton *)

Module ImageFacts.

Import Image.
Local Open Scope Z_scope.

(** *** Reading the pixels of a built image *)

Lemma height_build (h w : nat) (f : Z -> Z -> Z) :
  height (build h w f) = h.
Proof. unfold height, build. now rewrite length_map, length_seq. Qed.

Lemma width_build (h w : nat) (f : Z -> Z -> Z) :
  (0 < h)%nat -> width (build h w f) = w.
Proof.
  intros Hh. unfold width, build.
  destruct h as [| h]; [lia |].
  simpl. now rewrite length_map, length_seq.
Qed.

Lemma nth_build_row (h w : nat) (f : Z -> Z -> Z) (i : nat) :
  (i < h)%nat ->
  nth i (build h w f) []
  = map (fun j => f (Z.of_nat i) (Z.of_nat j)) (seq 0 w).
Proof.
  intros Hi. unfold build.
  rewrite (nth_indep _ []
             (map (fun j => f (Z.of_nat 0%nat) (Z.of_nat j)) (seq 0 w)))
    by (now rewrite length_map, length_seq).
  rewrite (map_nth
             (fun i => map (fun j => f (Z.of_nat i) (Z.of_nat j)) (seq 0 w))).
  now rewrite seq_nth.
Qed.

Lemma px_build_in (d : Z) (h w : nat) (f : Z -> Z -> Z) (i j : Z) :
  0 <= i < Z.of_nat h -> 0 <= j < Z.of_nat w ->
  px d (build h w f) i j = f i j.
Proof.
  intros Hi Hj. unfold px.
  replace (i <? 0) with false by (symmetry; apply Z.ltb_ge; lia).
  replace (j <? 0) with false by (symmetry; apply Z.ltb_ge; lia).
  simpl. rewrite nth_build_row by lia.
  rewrite (nth_indep _ d (f (Z.of_nat (Z.to_nat i)) (Z.of_nat 0%nat)))
    by (rewrite length_map, length_seq; lia).
  rewrite (map_nth (fun j => f (Z.of_nat (Z.to_nat i)) (Z.of_nat j))).
  rewrite seq_nth by lia. simpl. now rewrite !Z2Nat.id by lia.
Qed.

Lemma px_build_out (d : Z) (h w : nat) (f : Z -> Z -> Z) (i j : Z) :
  ~ (0 <= i < Z.of_nat h /\ 0 <= j < Z.of_nat w) ->
  px d (build h w f) i j = d.
Proof.
  intros Hout. unfold px.
  destruct (i <? 0) eqn:Hi; [reflexivity |].
  destruct (j <? 0) eqn:Hj; [reflexivity |].
  apply Z.ltb_ge in Hi, Hj. simpl.
  destruct (Z_lt_dec i (Z.of_nat h)) as [Hih | Hih].
  - rewrite nth_build_row by lia.
    apply nth_overflow. rewrite length_map, length_seq. lia.
  - rewrite (nth_overflow (build h w f)).
    + now destruct (Z.to_nat j).
    + fold (height (build h w f)). rewrite height_build. lia.
Qed.

(** *** Counting the foreground *)

Lemma length_filter_map {A B : Type} (p : B -> bool) (g : A -> B)
  (l : list A) :
  length (filter p (map g l)) = length (filter (fun x => p (g x)) l).
Proof.
  induction l as [| x l IH]; simpl; [reflexivity |].
  destruct (p (g x)); simpl; now rewrite IH.
Qed.

Lemma length_filter_le {A : Type} (p q : A -> bool) (l : list A) :
  (forall x, In x l -> p x = true -> q x = true) ->
  (length (filter p l) <= length (filter q l))%nat.
Proof.
  induction l as [| x l IH]; simpl; intros H; [lia |].
  assert (IH' : (length (filter p l) <= length (filter q l))%nat)
    by (apply IH; auto).
  destruct (p x) eqn:Hp.
  - rewrite (H x) by auto. simpl. lia.
  - destruct (q x); simpl; lia.
Qed.

Lemma length_filter_lt {A : Type} (p q : A -> bool) (l : list A) :
  (forall x, In x l -> p x = true -> q x = true) ->
  (exists x, In x l /\ p x = false /\ q x = true) ->
  (length (filter p l) < length (filter q l))%nat.
Proof.
  induction l as [| x l IH]; simpl; intros H (y & Hy & Hpy & Hqy);
    [destruct Hy |].
  assert (Hle : (length (filter p l) <= length (filter q l))%nat)
    by (apply length_filter_le; auto).
  destruct Hy as [-> | Hy].
  - rewrite Hpy, Hqy. simpl. lia.
  - assert (Hlt : (length (filter p l) < length (filter q l))%nat)
      by (apply IH; eauto).
    destruct (p x) eqn:Hp.
    + rewrite (H x) by auto. simpl. lia.
    + destruct (q x); simpl; lia.
Qed.

Lemma length_filter_pos {A : Type} (p : A -> bool) (l : list A) :
  length (filter p l) <> 0%nat -> exists x, In x l /\ p x = true.
Proof.
  induction l as [| x l IH]; simpl; intros H; [lia |].
  destruct (p x) eqn:Hp.
  - exists x. auto.
  - destruct (IH H) as (y & Hy & Hpy). exists y. auto.
Qed.

Lemma list_sum_map_le {A : Type} (F G : A -> nat) (l : list A) :
  (forall x, In x l -> (F x <= G x)%nat) ->
  (list_sum (map F l) <= list_sum (map G l))%nat.
Proof.
  induction l as [| x l IH]; simpl; intros H; [lia |].
  assert ((F x <= G x)%nat) by auto.
  assert ((list_sum (map F l) <= list_sum (map G l))%nat) by auto.
  lia.
Qed.

Lemma list_sum_map_lt {A : Type} (F G : A -> nat) (l : list A) :
  (forall x, In x l -> (F x <= G x)%nat) ->
  (exists x, In x l /\ (F x < G x)%nat) ->
  (list_sum (map F l) < list_sum (map G l))%nat.
Proof.
  induction l as [| x l IH]; simpl; intros H (y & Hy & Hlt);
    [destruct Hy |].
  assert ((F x <= G x)%nat) by auto.
  assert ((list_sum (map F l) <= list_sum (map G l))%nat)
    by (apply list_sum_map_le; auto).
  destruct Hy as [-> | Hy]; [lia |].
  assert ((list_sum (map F l) < list_sum (map G l))%nat)
    by (apply IH; eauto).
  lia.
Qed.

Lemma list_sum_map_pos {A : Type} (F : A -> nat) (l : list A) :
  list_sum (map F l) <> 0%nat -> exists x, In x l /\ F x <> 0%nat.
Proof.
  induction l as [| x l IH]; simpl; intros H; [lia |].
  destruct (Nat.eq_dec (F x) 0) as [Hz | Hnz].
  - destruct IH as (y & Hy & Hfy); [lia |]. exists y. auto.
  - exists x. auto.
Qed.

Lemma countNonZero_build (h w : nat) (f : Z -> Z -> Z) :
  countNonZero (build h w f) = list_sum (map (row_count w f) (seq 0 h)).
Proof.
  unfold countNonZero, build. rewrite map_map. f_equal.
  apply map_ext. intros i. unfold row_count.
  apply (length_filter_map (fun v => negb (v =? 0))).
Qed.

Lemma countNonZero_le (h w : nat) (f g : Z -> Z -> Z) :
  (forall i j, inside h w i j -> f i j <> 0 -> g i j <> 0) ->
  (countNonZero (build h w f) <= countNonZero (build h w g))%nat.
Proof.
  intros H. rewrite !countNonZero_build.
  apply list_sum_map_le. intros i Hi. apply in_seq in Hi.
  unfold row_count. apply length_filter_le. intros j Hj.
  apply in_seq in Hj. rewrite !negb_true_iff, !Z.eqb_neq.
  apply H. unfold inside. lia.
Qed.

Lemma countNonZero_lt (h w : nat) (f g : Z -> Z -> Z) :
  (forall i j, inside h w i j -> f i j <> 0 -> g i j <> 0) ->
  (exists i j, inside h w i j /\ f i j = 0 /\ g i j <> 0) ->
  (countNonZero (build h w f) < countNonZero (build h w g))%nat.
Proof.
  intros H (i & j & (Hi & Hj) & Hf & Hg). rewrite !countNonZero_build.
  apply list_sum_map_lt.
  - intros i' Hi'. apply in_seq in Hi'.
    unfold row_count. apply length_filter_le. intros j' Hj'.
    apply in_seq in Hj'. rewrite !negb_true_iff, !Z.eqb_neq.
    apply H. unfold inside. lia.
  - exists (Z.to_nat i). split; [apply in_seq; lia |].
    unfold row_count. apply length_filter_lt.
    + intros j' Hj'. apply in_seq in Hj'.
      rewrite !negb_true_iff, !Z.eqb_neq. apply H. unfold inside. lia.
    + exists (Z.to_nat j). split; [apply in_seq; lia |].
      rewrite !Z2Nat.id by lia.
      rewrite negb_false_iff, negb_true_iff, Z.eqb_eq, Z.eqb_neq. auto.
Qed.

Lemma countNonZero_pos (h w : nat) (f : Z -> Z -> Z) :
  countNonZero (build h w f) <> 0%nat ->
  exists i j, inside h w i j /\ f i j <> 0.
Proof.
  rewrite countNonZero_build. intros H.
  apply list_sum_map_pos in H as (i & Hi & H). apply in_seq in Hi.
  unfold row_count in H.
  apply length_filter_pos in H as (j & Hj & H). apply in_seq in Hj.
  rewrite negb_true_iff, Z.eqb_neq in H.
  exists (Z.of_nat i), (Z.of_nat j). unfold inside. split; [lia | exact H].
Qed.

(** *** One erosion *)

Lemma inside_dec (h w : nat) (i j : Z) :
  {inside h w i j} + {~ inside h w i j}.
Proof.
  unfold inside.
  destruct (Z_le_dec 0 i), (Z_lt_dec i (Z.of_nat h)), (Z_le_dec 0 j),
    (Z_lt_dec j (Z.of_nat w)); try (right; lia). left; lia.
Qed.

Lemma fold_min_le {A : Type} (g : A -> Z) (l : list A) (o : A) :
  In o l -> fold_right Z.min 255 (map g l) <= g o.
Proof.
  induction l as [| x l IH]; simpl; intros H; [destruct H |].
  destruct H as [-> | H]; [lia |]. specialize (IH H). lia.
Qed.

Lemma fold_min_nonneg {A : Type} (g : A -> Z) (l : list A) :
  (forall o, In o l -> 0 <= g o) -> 0 <= fold_right Z.min 255 (map g l).
Proof.
  induction l as [| x l IH]; simpl; intros H; [lia |].
  assert (0 <= g x) by auto.
  assert (0 <= fold_right Z.min 255 (map g l)) by auto.
  lia.
Qed.

Lemma px_border_nonneg (h w : nat) (f : Z -> Z -> Z) (i j : Z) :
  (forall i j, inside h w i j -> 0 <= f i j) ->
  0 <= px 255 (build h w f) i j.
Proof.
  intros Hf. destruct (inside_dec h w i j) as [Hin | Hout].
  - destruct Hin as [Hi Hj]. rewrite px_build_in by assumption.
    apply Hf. now split.
  - rewrite px_build_out by assumption. lia.
Qed.

(** The erosion of a built image is a built image; it removes foreground
    only, and it removes every foreground pixel that has a background
    pixel under the cross. *)
Lemma erode_step (h w : nat) (f : Z -> Z -> Z) :
  (0 < h)%nat ->
  (forall i j, inside h w i j -> 0 <= f i j) ->
  exists e,
    erode (build h w f) = build h w e /\
    (forall i j, inside h w i j -> 0 <= e i j) /\
    (forall i j, inside h w i j -> e i j <> 0 -> f i j <> 0) /\
    (forall i j o,
        inside h w i j -> In o cross ->
        inside h w (i + fst o) (j + snd o) ->
        f (i + fst o) (j + snd o) = 0 -> e i j = 0).
Proof.
  intros Hh Hf.
  exists (fun i j =>
            fold_right Z.min 255
              (map (fun o => px 255 (build h w f) (i + fst o) (j + snd o))
                 cross)).
  assert (Hnn : forall i j,
             0 <= fold_right Z.min 255
                    (map (fun o =>
                            px 255 (build h w f) (i + fst o) (j + snd o))
                       cross)).
  { intros i j. apply fold_min_nonneg. intros o _.
    now apply px_border_nonneg. }
  split; [| split; [| split]].
  - unfold erode. now rewrite height_build, width_build.
  - intros i j _. apply Hnn.
  - intros i j [Hi Hj] He Hz. apply He.
    pose proof (Hnn i j) as H0.
    pose proof (fold_min_le
                  (fun o => px 255 (build h w f) (i + fst o) (j + snd o))
                  cross (0, 0)) as Hle.
    assert (H : In (0, 0) cross) by (now left).
    specialize (Hle H). cbv beta in Hle.
    simpl fst in Hle. simpl snd in Hle.
    rewrite !Z.add_0_r, px_build_in, Hz in Hle by assumption.
    lia.
  - intros i j o _ Ho [Hi Hj] Hz.
    pose proof (Hnn i j) as H0.
    pose proof (fold_min_le
                  (fun o => px 255 (build h w f) (i + fst o) (j + snd o))
                  cross o Ho) as Hle.
    cbv beta in Hle. rewrite px_build_in, Hz in Hle by assumption.
    lia.
Qed.

(** *** Foreground next to background *)

Lemma crossing_up (g : Z -> bool) (n : nat) (a : Z) :
  g a = true -> g (a + Z.of_nat n) = false ->
  exists k, a <= k < a + Z.of_nat n /\ g k = true /\ g (k + 1) = false.
Proof.
  induction n as [| n IH]; intros Ha Hb.
  - rewrite Z.add_0_r in Hb. congruence.
  - destruct (g (a + Z.of_nat n)) eqn:Hn.
    + exists (a + Z.of_nat n). split; [lia |]. split; [assumption |].
      replace (a + Z.of_nat n + 1) with (a + Z.of_nat (S n)) by lia.
      assumption.
    + destruct (IH Ha eq_refl) as (k & Hk & H1 & H2).
      exists k. split; [lia | auto].
Qed.

Lemma crossing_down (g : Z -> bool) (n : nat) (a : Z) :
  g a = false -> g (a + Z.of_nat n) = true ->
  exists k, a <= k < a + Z.of_nat n /\ g k = false /\ g (k + 1) = true.
Proof.
  induction n as [| n IH]; intros Ha Hb.
  - rewrite Z.add_0_r in Hb. congruence.
  - destruct (g (a + Z.of_nat n)) eqn:Hn.
    + destruct (IH Ha eq_refl) as (k & Hk & H1 & H2).
      exists k. split; [lia | auto].
    + exists (a + Z.of_nat n). split; [lia |]. split; [assumption |].
      replace (a + Z.of_nat n + 1) with (a + Z.of_nat (S n)) by lia.
      assumption.
Qed.

(** Between a true and a false position of a line there are two adjacent
    positions, the first true and the second false. *)
Lemma crossing_line (g : Z -> bool) (x y : Z) :
  g x = true -> g y = false ->
  exists p d,
    (d = 1 \/ d = -1) /\
    Z.min x y <= p <= Z.max x y /\ Z.min x y <= p + d <= Z.max x y /\
    g p = true /\ g (p + d) = false.
Proof.
  intros Hx Hy.
  destruct (Z_lt_dec x y) as [Hlt | Hge].
  - destruct (crossing_up g (Z.to_nat (y - x)) x) as (k & Hk & H1 & H2);
      [assumption | rewrite Z2Nat.id by lia; now replace (x + (y - x)) with y by lia |].
    rewrite Z2Nat.id in Hk by lia.
    exists k, 1. repeat split; auto; lia.
  - assert (Hne : x <> y) by (intros ->; congruence).
    destruct (crossing_down g (Z.to_nat (x - y)) y) as (k & Hk & H1 & H2);
      [assumption | rewrite Z2Nat.id by lia; now replace (y + (x - y)) with x by lia |].
    rewrite Z2Nat.id in Hk by lia.
    exists (k + 1), (-1).
    replace (k + 1 + -1) with k by lia.
    repeat split; auto; lia.
Qed.

(** An image with a foreground and a background pixel has a foreground
    pixel with a background pixel under the cross. *)
Lemma foreground_next_to_background (h w : nat) (f : Z -> Z -> Z) :
  (exists i j, inside h w i j /\ f i j <> 0) ->
  (exists i j, inside h w i j /\ f i j = 0) ->
  exists i j o,
    inside h w i j /\ In o cross /\
    inside h w (i + fst o) (j + snd o) /\
    f i j <> 0 /\ f (i + fst o) (j + snd o) = 0.
Proof.
  intros (i1 & j1 & [Hi1 Hj1] & Hfg) (i2 & j2 & [Hi2 Hj2] & Hbg).
  destruct (Z.eq_dec (f i1 j2) 0) as [Hz | Hnz].
  - (* along row [i1], from column [j1] to column [j2] *)
    destruct (crossing_line (fun j => negb (f i1 j =? 0)) j1 j2)
      as (p & d & Hd & Hp & Hq & H1 & H2).
    + now rewrite negb_true_iff, Z.eqb_neq.
    + now rewrite negb_false_iff, Z.eqb_eq.
    + rewrite negb_true_iff, Z.eqb_neq in H1.
      rewrite negb_false_iff, Z.eqb_eq in H2.
      exists i1, p, (0, d). simpl fst. simpl snd.
      rewrite Z.add_0_r. unfold inside.
      split; [lia |].
      split; [destruct Hd as [-> | ->]; simpl; auto 10 |].
      split; [lia |]. auto.
  - (* along column [j2], from row [i1] to row [i2] *)
    destruct (crossing_line (fun i => negb (f i j2 =? 0)) i1 i2)
      as (p & d & Hd & Hp & Hq & H1 & H2).
    + now rewrite negb_true_iff, Z.eqb_neq.
    + now rewrite negb_false_iff, Z.eqb_eq.
    + rewrite negb_true_iff, Z.eqb_neq in H1.
      rewrite negb_false_iff, Z.eqb_eq in H2.
      exists p, j2, (d, 0). simpl fst. simpl snd.
      rewrite Z.add_0_r. unfold inside.
      split; [lia |].
      split; [destruct Hd as [-> | ->]; simpl; auto 10 |].
      split; [lia |]. auto.
Qed.

(** An erosion strictly lowers the number of foreground pixels of an image
    that has both foreground and background. *)
Lemma erode_decreases (h w : nat) (f e : Z -> Z -> Z) :
  (forall i j, inside h w i j -> e i j <> 0 -> f i j <> 0) ->
  (forall i j o,
      inside h w i j -> In o cross ->
      inside h w (i + fst o) (j + snd o) ->
      f (i + fst o) (j + snd o) = 0 -> e i j = 0) ->
  (exists i j, inside h w i j /\ f i j <> 0) ->
  (exists i j, inside h w i j /\ f i j = 0) ->
  (countNonZero (build h w e) < countNonZero (build h w f))%nat.
Proof.
  intros Hsub Hcut Hfg Hbg.
  destruct (foreground_next_to_background h w f Hfg Hbg)
    as (i & j & o & Hin & Ho & Hin' & Hf & Hz).
  apply countNonZero_lt; [exact Hsub |].
  exists i, j. split; [exact Hin |]. split; [| exact Hf].
  now apply (Hcut i j o).
Qed.

(** *** The loop *)

Lemma find_skeleton_loop_step (fuel : nat) (thresh skeleton : image)
  (iters : nat) :
  find_skeleton_loop (S fuel) thresh skeleton iters
  = if (countNonZero (erode thresh) =? 0)%nat
    then Some (bitwise_or skeleton
                 (subtract thresh (dilate (erode thresh))),
               (iters + 1)%nat)
    else find_skeleton_loop fuel (erode thresh)
           (bitwise_or skeleton (subtract thresh (dilate (erode thresh))))
           (iters + 1)%nat.
Proof. reflexivity. Qed.

(** The loop returns as soon as an erosion leaves no foreground, and the
    count it returns is the number of erosions made. *)
Lemma find_skeleton_loop_result (fuel : nat) :
  forall (thresh skeleton : image) (iters : nat) res n,
    find_skeleton_loop fuel thresh skeleton iters = Some (res, n) ->
    exists k,
      n = (iters + k)%nat /\ (1 <= k <= fuel)%nat /\
      countNonZero (Nat.iter k erode thresh) = 0%nat /\
      forall j, (1 <= j < k)%nat ->
                countNonZero (Nat.iter j erode thresh) <> 0%nat.
Proof.
  induction fuel as [| fuel IH]; intros thresh skeleton iters res n H.
  - discriminate.
  - rewrite find_skeleton_loop_step in H.
    destruct (countNonZero (erode thresh) =? 0)%nat eqn:Hc.
    + injection H as _ <-. exists 1%nat.
      split; [reflexivity |]. split; [lia |].
      split; [now apply Nat.eqb_eq in Hc | intros j Hj; lia].
    + apply IH in H as (k & -> & Hk & Hz & Hnz).
      exists (S k). split; [lia |]. split; [lia |].
      rewrite Nat.iter_succ_r. split; [exact Hz |].
      intros j Hj. destruct j as [| j]; [lia |].
      rewrite Nat.iter_succ_r.
      destruct j as [| j].
      * simpl. now apply Nat.eqb_neq in Hc.
      * apply Hnz. lia.
Qed.

(** With a background pixel in the working image, the loop returns within
    as many rounds as the image has foreground pixels, and one more. *)
Lemma find_skeleton_loop_terminates (h w : nat) :
  (0 < h)%nat ->
  forall (n : nat) (f : Z -> Z -> Z) (skeleton : image) (iters : nat),
    (forall i j, inside h w i j -> 0 <= f i j) ->
    (exists i j, inside h w i j /\ f i j = 0) ->
    (countNonZero (build h w f) <= n)%nat ->
    exists res m,
      find_skeleton_loop (S n) (build h w f) skeleton iters = Some (res, m).
Proof.
  intros Hh. induction n as [| n IH]; intros f skeleton iters Hf Hbg Hn.
  - rewrite find_skeleton_loop_step.
    destruct (erode_step h w f Hh Hf) as (e & He & He0 & Hsub & Hcut).
    rewrite He.
    destruct (countNonZero (build h w e) =? 0)%nat eqn:Hc; [eauto |].
    exfalso. apply Nat.eqb_neq in Hc.
    assert (Hle : (countNonZero (build h w e)
                   <= countNonZero (build h w f))%nat)
      by (now apply countNonZero_le).
    lia.
  - rewrite find_skeleton_loop_step.
    destruct (erode_step h w f Hh Hf) as (e & He & He0 & Hsub & Hcut).
    rewrite He.
    destruct (countNonZero (build h w e) =? 0)%nat eqn:Hc; [eauto |].
    apply Nat.eqb_neq in Hc.
    apply IH.
    + exact He0.
    + destruct Hbg as (i & j & Hin & Hz). exists i, j.
      split; [exact Hin |].
      destruct (Z.eq_dec (e i j) 0) as [| Hne]; [assumption |].
      exfalso. now apply (Hsub i j Hin Hne).
    + assert (Hfg : exists i j, inside h w i j /\ f i j <> 0).
      { destruct (countNonZero_pos h w e Hc) as (i & j & Hin & Hne).
        exists i, j. split; [exact Hin |]. now apply Hsub. }
      pose proof (erode_decreases h w f e Hsub Hcut Hfg Hbg). lia.
Qed.

(** Every erosion of a built image is a built image with no more
    foreground. *)
Lemma iter_erode_build (h w : nat) (f : Z -> Z -> Z) :
  (0 < h)%nat ->
  (forall i j, inside h w i j -> 0 <= f i j) ->
  forall k,
    exists e,
      Nat.iter k erode (build h w f) = build h w e /\
      (forall i j, inside h w i j -> 0 <= e i j).
Proof.
  intros Hh Hf. induction k as [| k (e & He & He0)].
  - exists f. auto.
  - destruct (erode_step h w e Hh He0) as (e' & He' & He0' & _).
    exists e'. simpl. rewrite He. auto.
Qed.

Lemma threshold_nonneg (img : image) (i j : Z) :
  0 <= (if 127 <? px 0 img i j then 255 else 0).
Proof. destruct (127 <? px 0 img i j); lia. Qed.

Lemma two_by_two_all_foreground :
  all_foreground [[255; 255]; [255; 255]].
Proof.
  intros i j Hi Hj. unfold height, width in Hi, Hj. simpl in Hi, Hj.
  destruct i as [| [| i]]; [| | lia];
    (destruct j as [| [| j]]; [| | lia]); reflexivity.
Qed.

Lemma two_by_two_loop (fuel : nat) :
  forall (skeleton : image) (iters : nat),
    find_skeleton_loop fuel [[255; 255]; [255; 255]] skeleton iters = None.
Proof.
  induction fuel as [| fuel IH]; intros skeleton iters; [reflexivity |].
  rewrite find_skeleton_loop_step.
  change (erode [[255; 255]; [255; 255]]) with [[255; 255]; [255; 255]].
  change (Nat.eqb (countNonZero [[255; 255]; [255; 255]]) 0) with false.
  cbv iota. apply IH.
Qed.

(** C6, as the specification words it, fails on an image without
    background: erosion leaves the border untouched, a 2 by 2 image of
    foreground pixels is its own erosion, and the loop never returns,
    however many rounds it is given. *)
Lemma find_skeleton_all_foreground_loops :
  all_foreground [[255; 255]; [255; 255]] /\
  erode (threshold [[255; 255]; [255; 255]])
  = threshold [[255; 255]; [255; 255]] /\
  forall fuel, find_skeleton fuel [[255; 255]; [255; 255]] = None.
Proof.
  split; [exact two_by_two_all_foreground |].
  split; [reflexivity |].
  intros fuel. unfold find_skeleton.
  change (threshold [[255; 255]; [255; 255]])
    with [[255; 255]; [255; 255]].
  apply two_by_two_loop.
Qed.

(** C6 (amended): on an image with at least one background pixel,
    [find_skeleton] returns.  Every round erodes the working image, ORs
    into the skeleton what the dilation of the eroded image does not give
    back, and goes on with the eroded image; the number of foreground
    pixels never increases from one erosion to the next; the loop stops
    at the first erosion that leaves no foreground, within as many rounds
    as the thresholded image has foreground pixels and one more, and
    returns the number of rounds made. *)
Theorem find_skeleton_terminates (img : image) :
  (exists i j,
      inside (height img) (width img) i j /\ px 0 img i j <= 127) ->
  let thresh := threshold img in
  let n := countNonZero thresh in
  exists skeleton iters,
    find_skeleton (S n) img = Some (skeleton, iters) /\
    (1 <= iters <= S n)%nat /\
    countNonZero (Nat.iter iters erode thresh) = 0%nat /\
    (forall k, (1 <= k < iters)%nat ->
               countNonZero (Nat.iter k erode thresh) <> 0%nat) /\
    (forall k,
        (countNonZero (Nat.iter (S k) erode thresh)
         <= countNonZero (Nat.iter k erode thresh))%nat) /\
    (forall fuel t s it,
        find_skeleton_loop (S fuel) t s it
        = if (countNonZero (erode t) =? 0)%nat
          then Some (bitwise_or s (subtract t (dilate (erode t))),
                     (it + 1)%nat)
          else find_skeleton_loop fuel (erode t)
                 (bitwise_or s (subtract t (dilate (erode t))))
                 (it + 1)%nat).
Proof.
  intros (i & j & Hin & Hbg). cbv zeta.
  set (h := height img) in *. set (w := width img) in *.
  set (t := fun i j : Z => if 127 <? px 0 img i j then 255 else 0).
  assert (Hh : (0 < h)%nat) by (destruct Hin; lia).
  assert (Ht : threshold img = build h w t) by reflexivity.
  assert (Ht0 : forall i j, inside h w i j -> 0 <= t i j)
    by (intros; apply threshold_nonneg).
  assert (Htbg : exists i j, inside h w i j /\ t i j = 0).
  { exists i, j. split; [exact Hin |]. unfold t.
    replace (127 <? px 0 img i j) with false; [reflexivity |].
    symmetry. apply Z.ltb_ge. exact Hbg. }
  destruct (find_skeleton_loop_terminates h w Hh
              (countNonZero (build h w t)) t (zeros h w) 0 Ht0 Htbg
              (Nat.le_refl _)) as (res & m & Hrun).
  exists res, m. unfold find_skeleton. fold h. fold w. rewrite Ht.
  split; [exact Hrun |].
  destruct (find_skeleton_loop_result _ _ _ _ _ _ Hrun)
    as (k & -> & Hk & Hz & Hnz).
  simpl. split; [lia |]. split; [exact Hz |]. split; [exact Hnz |].
  split.
  - intros k'.
    destruct (iter_erode_build h w t Hh Ht0 k') as (e & He & He0).
    simpl. rewrite He.
    destruct (erode_step h w e Hh He0) as (e' & He' & _ & Hsub & _).
    rewrite He'. now apply countNonZero_le.
  - intros. apply find_skeleton_loop_step.
Qed.

Lemma find_skeleton_terminates_witness :
  let img := [[255; 0]; [255; 255]] in
  let thresh := threshold img in
  let n := countNonZero thresh in
  exists skeleton iters,
    find_skeleton (S n) img = Some (skeleton, iters) /\
    (1 <= iters <= S n)%nat /\
    countNonZero (Nat.iter iters erode thresh) = 0%nat /\
    (forall k, (1 <= k < iters)%nat ->
               countNonZero (Nat.iter k erode thresh) <> 0%nat) /\
    (forall k,
        (countNonZero (Nat.iter (S k) erode thresh)
         <= countNonZero (Nat.iter k erode thresh))%nat) /\
    (forall fuel t s it,
        find_skeleton_loop (S fuel) t s it
        = if (countNonZero (erode t) =? 0)%nat
          then Some (bitwise_or s (subtract t (dilate (erode t))),
                     (it + 1)%nat)
          else find_skeleton_loop fuel (erode t)
                 (bitwise_or s (subtract t (dilate (erode t))))
                 (it + 1)%nat).
Proof.
  apply (find_skeleton_terminates [[255; 0]; [255; 255]]).
  exists 0, 1.
  split; [unfold inside, height, width; simpl; lia | vm_compute; discriminate].
Defined.

(** Two runs of [find_skeleton]: on that image, and on a 3 by 3 square
    inside a 5 by 5 image, whose skeleton is its two diagonals. *)
Example find_skeleton_corner :
  find_skeleton 4 [[255; 0]; [255; 255]]
  = Some ([[0; 0]; [255; 0]], 2%nat).
Proof. reflexivity. Qed.

Example find_skeleton_square :
  find_skeleton 9
    [[0; 0; 0; 0; 0];
     [0; 255; 255; 255; 0];
     [0; 255; 255; 255; 0];
     [0; 255; 255; 255; 0];
     [0; 0; 0; 0; 0]]
  = Some ([[0; 0; 0; 0; 0];
           [0; 255; 0; 255; 0];
           [0; 0; 255; 0; 0];
           [0; 255; 0; 255; 0];
           [0; 0; 0; 0; 0]], 2%nat).
Proof. reflexivity. Qed.

End ImageFacts.

(** * Further properties of the code *)

(** ** Differences of angles *)

Section AngleDifferences.

Lemma atan2_opp_opp (y x : R) :
  x <> 0 \/ y <> 0 ->
  atan2 (- y) (- x) = atan2 y x + PI \/ atan2 (- y) (- x) = atan2 y x - PI.
Proof.
  intros Hxy. pose proof PI_RGT_0 as Hpi.
  assert (Hq : x <> 0 -> - y / - x = y / x) by (intros; field; lra).
  unfold atan2.
  destruct (Rlt_dec 0 x) as [Hx | Hx].
  - rewrite Hq by lra. case_Rlt; try lra; auto.
  - destruct (Rlt_dec x 0) as [Hx' | Hx'].
    + rewrite Hq by lra. case_Rlt; try lra; auto.
    + assert (x = 0) by lra. subst x.
      case_Rlt; try lra.
Qed.

(** X1: [difference_of_angles] returns the signed circular difference: the
    one value of [(-PI, PI]] that differs from [theta1 - theta2] by a whole
    number of turns. *)
Theorem difference_of_angles_principal (theta1 theta2 d : R) :
  difference_of_angles theta1 theta2 = d <->
  - PI < d <= PI /\ exists k : Z, d = theta1 - theta2 + 2 * PI * IZR k.
Proof.
  pose proof PI_RGT_0 as Hpi.
  destruct (difference_of_angles_spec theta1 theta2) as (Hr & k0 & Hk0).
  split.
  - intros <-. split; [exact Hr |]. now exists k0.
  - intros (Hd & k & Hk).
    assert (Hn : d - difference_of_angles theta1 theta2
                 = 2 * PI * IZR (k - k0)).
    { rewrite minus_IZR, Hk, Hk0. ring. }
    destruct (Z.eq_dec (k - k0) 0) as [Hz | Hnz].
    + rewrite Hz in Hn. lra.
    + exfalso.
      assert (Hc : (k - k0 <= -1)%Z \/ (1 <= k - k0)%Z) by lia.
      destruct Hc as [Hc | Hc]; apply IZR_le in Hc; nra.
Qed.

(** X2: exchanging the two angles negates the difference, except when the
    angles are opposite, where the difference is [PI] both ways. *)
Theorem difference_of_angles_swap (theta1 theta2 : R) :
  (difference_of_angles theta1 theta2 <> PI ->
   difference_of_angles theta2 theta1 = - difference_of_angles theta1 theta2)
  /\
  (difference_of_angles theta1 theta2 = PI ->
   difference_of_angles theta2 theta1 = PI).
Proof.
  pose proof PI_RGT_0 as Hpi.
  destruct (difference_of_angles_spec theta1 theta2) as (Hr & k & Hk).
  destruct (difference_of_angles_spec theta2 theta1) as (Hr' & k' & Hk').
  assert (Hsum : difference_of_angles theta1 theta2
                 + difference_of_angles theta2 theta1
                 = 2 * PI * IZR (k + k')).
  { rewrite plus_IZR, Hk, Hk'. ring. }
  assert (Hc : (k + k' <= -1)%Z \/ (k + k' = 0)%Z \/ (k + k' = 1)%Z
               \/ (2 <= k + k')%Z) by lia.
  destruct Hc as [Hc | [Hc | [Hc | Hc]]].
  - apply IZR_le in Hc. split; intros; exfalso; nra.
  - rewrite Hc in Hsum. split; intros H; [lra |].
    exfalso. rewrite H in Hsum. lra.
  - rewrite Hc in Hsum. split; intros H; lra.
  - apply IZR_le in Hc. split; intros; exfalso; nra.
Qed.

Lemma difference_of_angles_swap_witness :
  difference_of_angles 0 (PI / 2) = - difference_of_angles (PI / 2) 0.
Proof.
  apply (proj1 (difference_of_angles_swap (PI / 2) 0)).
  pose proof PI_RGT_0. rewrite difference_of_angles_small; lra.
Defined.

(** X3: whole turns added to either angle do not change the difference. *)
Theorem difference_of_angles_turns (theta1 theta2 : R) (k1 k2 : Z) :
  difference_of_angles (theta1 + 2 * PI * IZR k1) (theta2 + 2 * PI * IZR k2)
  = difference_of_angles theta1 theta2.
Proof.
  unfold difference_of_angles. cbv zeta.
  replace (theta1 + 2 * PI * IZR k1 - (theta2 + 2 * PI * IZR k2))
    with (theta1 - theta2 + 2 * PI * IZR (k1 - k2))
    by (rewrite minus_IZR; ring).
  now rewrite sin_period_Z, cos_period_Z.
Qed.

End AngleDifferences.

(** ** Orientation of segments and the line filter *)

Section Orientation.

Lemma orientation_reverse (s : segment) :
  sx1 s <> sx2 s \/ sy1 s <> sy2 s ->
  orientation (reverse_segment s) = orientation s + PI \/
  orientation (reverse_segment s) = orientation s - PI.
Proof.
  intros Hne. unfold orientation, reverse_segment, line_angle. simpl.
  replace (IZR (sy1 s - sy2 s)) with (- IZR (sy2 s - sy1 s))
    by (rewrite <- opp_IZR; f_equal; lia).
  replace (IZR (sx1 s - sx2 s)) with (- IZR (sx2 s - sx1 s))
    by (rewrite <- opp_IZR; f_equal; lia).
  destruct (atan2_opp_opp (IZR (sy2 s - sy1 s)) (IZR (sx2 s - sx1 s)))
    as [H | H].
  - destruct Hne as [Hne | Hne]; [left | right];
      intros H0; apply eq_IZR in H0; lia.
  - left. rewrite H. ring.
  - right. rewrite H. ring.
Qed.

(** X4: [line_angle] lies in [(-PI/2, 3 PI/2]]; it is [PI/2] when the two
    points coincide; exchanging two distinct points moves it by half a
    turn. *)
Theorem line_angle_range (pt1 pt2 : point) :
  - (PI / 2) < line_angle pt1 pt2 <= 3 * (PI / 2) /\
  line_angle pt1 pt1 = PI / 2 /\
  (pt1 <> pt2 ->
   line_angle pt2 pt1 = line_angle pt1 pt2 + PI \/
   line_angle pt2 pt1 = line_angle pt1 pt2 - PI).
Proof.
  pose proof PI_RGT_0 as Hpi.
  split; [| split].
  - unfold line_angle.
    pose proof (atan2_bounds (IZR (snd pt2 - snd pt1))
                  (IZR (fst pt2 - fst pt1))). lra.
  - unfold line_angle. rewrite !Z.sub_diag.
    unfold atan2. case_Rlt; lra.
  - intros Hne. destruct pt1 as [a1 b1], pt2 as [a2 b2].
    apply (orientation_reverse (mkSeg a1 b1 a2 b2)). simpl.
    destruct (Z.eq_dec a1 a2) as [-> | ]; [| now left].
    right. intros ->. now apply Hne.
Qed.

Lemma line_angle_range_witness :
  line_angle (3, 4)%Z (0, 0)%Z = line_angle (0, 0)%Z (3, 4)%Z + PI \/
  line_angle (3, 4)%Z (0, 0)%Z = line_angle (0, 0)%Z (3, 4)%Z - PI.
Proof.
  apply (proj2 (proj2 (line_angle_range (0, 0)%Z (3, 4)%Z))).
  discriminate.
Defined.

(** X5: the distance to the pivot, and with it the near-pivot flag, does
    not depend on the order of the two endpoints. *)
Theorem pivot_distance_reverse (s : segment) (image_center : point)
  (cutoff : Z) :
  pivot_distance (reverse_segment s) image_center
  = pivot_distance s image_center /\
  near_flag image_center cutoff (reverse_segment s)
  = near_flag image_center cutoff s.
Proof.
  assert (H : pivot_distance (reverse_segment s) image_center
              = pivot_distance s image_center).
  { unfold pivot_distance. f_equal.
    - f_equal. unfold distance_dividend, reverse_segment.
      destruct image_center as [x0 y0]. cbn [sx1 sy1 sx2 sy2].
      rewrite <- Z.abs_opp. f_equal. ring.
    - unfold distance_divisor, reverse_segment. cbn [sx1 sy1 sx2 sy2].
      f_equal. f_equal. ring. }
  split; [exact H |]. unfold near_flag. now rewrite H.
Qed.

End Orientation.

Section FilterLinesMore.

Variable image_center : point.
Variable cutoff : Z.

Lemma near_flag_true (s : segment) :
  near_flag image_center cutoff s = true
  <-> near_pivot s image_center cutoff.
Proof. apply flag_true_iff. Qed.

Lemma longest_line_some (lines : list segment) (s : segment) :
  In s lines -> near_pivot s image_center cutoff ->
  exists md m, longest_line (first_loop lines image_center cutoff)
               = Some (md, m).
Proof.
  intros Hs Hn.
  pose proof (longest_line_inv (first_loop lines image_center cutoff))
    as Hinv.
  destruct (longest_line (first_loop lines image_center cutoff))
    as [[md m] |]; [eauto |].
  exfalso. simpl in Hinv.
  specialize (Hinv (near_flag image_center cutoff s, s)).
  apply flag_true_iff in Hn.
  assert (Hin : In (near_flag image_center cutoff s, s)
                  (first_loop lines image_center cutoff)).
  { unfold first_loop. apply in_map_iff. exists s. auto. }
  apply Hinv in Hin. simpl in Hin. unfold near_flag in Hin. congruence.
Qed.

(** With a reference segment, the result holds the near-pivot segments,
    each flagged by the comparison of its orientation with the
    reference. *)
Lemma filter_lines_with_reference (lines : list segment) (md : R)
  (m : flagged) :
  longest_line (first_loop lines image_center cutoff) = Some (md, m) ->
  filter_lines lines image_center cutoff
  = map (fun s =>
           (Rltb (Rabs (difference_of_angles (orientation (snd m))
                          (orientation s))) (PI / 8), s))
      (filter (near_flag image_center cutoff) lines).
Proof.
  intros Hl. unfold filter_lines. rewrite Hl. cbv zeta.
  fold (orientation (snd m)).
  generalize (orientation (snd m)) as a0. intros a0.
  clear Hl. unfold first_loop.
  induction lines as [| s l IH]; simpl; [reflexivity |].
  fold (near_flag image_center cutoff s).
  destruct (near_flag image_center cutoff s); simpl; now rewrite IH.
Qed.

(** X6: when a candidate is near the pivot, [filter_lines] returns the
    near-pivot candidates and no other, in the order they came in; each is
    included exactly when its orientation is within [PI / 8] of that of
    the reference segment, a longest near-pivot candidate. *)
Theorem filter_lines_near_only (lines : list segment) :
  (exists s, In s lines /\ near_pivot s image_center cutoff) ->
  exists m,
    In m lines /\ near_pivot m image_center cutoff /\
    (forall s, In s lines -> near_pivot s image_center cutoff ->
               segment_length s <= segment_length m) /\
    map snd (filter_lines lines image_center cutoff)
    = filter (near_flag image_center cutoff) lines /\
    forall inc s,
      In (inc, s) (filter_lines lines image_center cutoff) ->
      (inc = true <->
       Rabs (difference_of_angles (orientation m) (orientation s)) < PI / 8).
Proof.
  intros (s0 & Hs0 & Hn0).
  destruct (longest_line_some lines s0 Hs0 Hn0) as (md & m & Hl).
  pose proof (longest_line_inv (first_loop lines image_center cutoff))
    as Hinv.
  rewrite Hl in Hinv. simpl in Hinv.
  destruct Hinv as (Hin & Hf & Hmd & Hmax).
  apply in_lines2 in Hin as (Hm & Hfm).
  exists (snd m).
  split; [exact Hm |].
  split; [apply flag_true_iff; congruence |].
  split.
  { intros s Hs Hn. rewrite <- Hmd.
    apply (Hmax (near_flag image_center cutoff s, s)).
    - unfold first_loop. apply in_map_iff. exists s. auto.
    - simpl. now apply flag_true_iff. }
  rewrite (filter_lines_with_reference lines md m Hl).
  split.
  - rewrite map_map. simpl. apply map_id.
  - intros inc s Hin. apply in_map_iff in Hin as (s' & Heq & _).
    injection Heq as <- <-. apply Rltb_true.
Qed.

Lemma summarize_lines_some_aux (lines : list segment) :
  (exists s, In s lines /\ near_pivot s image_center cutoff) ->
  (exists m, In (true, m) (filter_lines lines image_center cutoff)) /\
  exists theta,
    summarize_lines (filter_lines lines image_center cutoff) image_center
    = Some theta /\
    - PI < theta <= PI.
Proof.
  intros (s0 & Hs0 & Hn0).
  destruct (longest_line_some lines s0 Hs0 Hn0) as (md & m & Hl).
  pose proof (longest_line_inv (first_loop lines image_center cutoff))
    as Hinv.
  rewrite Hl in Hinv. simpl in Hinv.
  destruct Hinv as (Hin & Hf & _ & _).
  apply in_lines2 in Hin as (Hm & Hfm).
  assert (Hinc : In (true, snd m)
                   (filter_lines lines image_center cutoff)).
  { rewrite (filter_lines_with_reference lines md m Hl).
    apply in_map_iff. exists (snd m). split.
    - f_equal. rewrite difference_of_angles_same, Rabs_R0.
      apply Rltb_true. pose proof PI_RGT_0. lra.
    - apply filter_In. split; [exact Hm |].
      unfold near_flag. congruence. }
  split; [eauto |].
  unfold summarize_lines.
  destruct (endpoint_angles (filter_lines lines image_center cutoff)
              image_center) as [| a aa] eqn:Ha.
  - exfalso. unfold endpoint_angles in Ha.
    assert (Hx : In (line_angle image_center (sx1 (snd m), sy1 (snd m)))
                   (flat_map
                      (fun lst : flagged =>
                         let '(inc, s) := lst in
                         if inc
                         then [line_angle image_center (sx1 s, sy1 s);
                               line_angle image_center (sx2 s, sy2 s)]
                         else [])
                      (filter_lines lines image_center cutoff))).
    { apply in_flat_map. exists (true, snd m). split; [exact Hinc |].
      now left. }
    rewrite Ha in Hx. destruct Hx.
  - destruct (mean_angles_nonempty (a :: aa)) as (sn & cs & Hmean);
      [discriminate |].
    exists (atan2 sn cs). split; [exact Hmean | apply atan2_bounds].
Qed.

(** X7: the reference segment itself is always included, so that with a
    candidate near the pivot [summarize_lines] returns an angle, in
    [(-PI, PI]]. *)
Theorem summarize_lines_some (lines : list segment) :
  (exists s, In s lines /\ near_pivot s image_center cutoff) ->
  (exists m, In (true, m) (filter_lines lines image_center cutoff)) /\
  exists theta,
    summarize_lines (filter_lines lines image_center cutoff) image_center
    = Some theta /\
    - PI < theta <= PI.
Proof. exact (summarize_lines_some_aux lines). Qed.

End FilterLinesMore.

Lemma filter_lines_near_only_witness :
  exists m,
    In m [mkSeg 0 (-10) 0 10] /\ near_pivot m (0, 0)%Z 5 /\
    (forall s, In s [mkSeg 0 (-10) 0 10] -> near_pivot s (0, 0)%Z 5 ->
               segment_length s <= segment_length m) /\
    map snd (filter_lines [mkSeg 0 (-10) 0 10] (0, 0)%Z 5)
    = filter (near_flag (0, 0)%Z 5) [mkSeg 0 (-10) 0 10] /\
    forall inc s,
      In (inc, s) (filter_lines [mkSeg 0 (-10) 0 10] (0, 0)%Z 5) ->
      (inc = true <->
       Rabs (difference_of_angles (orientation m) (orientation s)) < PI / 8).
Proof.
  apply (filter_lines_near_only (0, 0)%Z 5 [mkSeg 0 (-10) 0 10]).
  exists (mkSeg 0 (-10) 0 10).
  split; [now left | exact vertical_through_pivot_near].
Defined.

Lemma summarize_lines_some_witness :
  (exists m, In (true, m) (filter_lines [mkSeg 0 (-10) 0 10] (0, 0)%Z 5)) /\
  exists theta,
    summarize_lines (filter_lines [mkSeg 0 (-10) 0 10] (0, 0)%Z 5) (0, 0)%Z
    = Some theta /\
    - PI < theta <= PI.
Proof.
  apply (summarize_lines_some (0, 0)%Z 5 [mkSeg 0 (-10) 0 10]).
  exists (mkSeg 0 (-10) 0 10).
  split; [now left | exact vertical_through_pivot_near].
Defined.

(** X8: [filter_lines] never includes both a segment of positive length
    and the same segment with its endpoints exchanged: their orientations
    are half a turn apart, and at most one can be within [PI / 8] of the
    reference. *)
Theorem filter_lines_not_both_directions (lines : list segment)
  (image_center : point) (cutoff : Z) (s : segment) :
  sx1 s <> sx2 s \/ sy1 s <> sy2 s ->
  ~ (In (true, s) (filter_lines lines image_center cutoff) /\
     In (true, reverse_segment s) (filter_lines lines image_center cutoff)).
Proof.
  intros Hne [H1 H2]. pose proof PI_RGT_0 as Hpi.
  assert (Hnear : exists s0, In s0 lines /\ near_pivot s0 image_center cutoff).
  { apply filter_lines_included_inv in H1 as (Hs & Hn & _). eauto. }
  destruct Hnear as (s0 & Hs0 & Hn0).
  destruct (longest_line_some image_center cutoff lines s0 Hs0 Hn0)
    as (md & m & Hl).
  rewrite (filter_lines_with_reference image_center cutoff lines md m Hl)
    in H1, H2.
  apply in_map_iff in H1 as (s1 & Heq1 & _). injection Heq1 as Hc1 ->.
  apply in_map_iff in H2 as (s2 & Heq2 & _). injection Heq2 as Hc2 ->.
  apply Rltb_true in Hc1, Hc2.
  set (a0 := orientation (snd m)) in *.
  destruct (difference_of_angles_spec a0 (orientation s)) as (_ & k1 & E1).
  destruct (difference_of_angles_spec a0 (orientation (reverse_segment s)))
    as (_ & k2 & E2).
  apply Rabs_def2 in Hc1, Hc2.
  destruct (orientation_reverse s Hne) as [Hr | Hr]; rewrite Hr in E2.
  - assert (Hd : difference_of_angles a0 (orientation s)
                 - difference_of_angles a0 (orientation s + PI)
                 = PI * IZR (2 * (k1 - k2) + 1)).
    { rewrite plus_IZR, mult_IZR, minus_IZR, E1, E2. ring. }
    rewrite Hr in Hc2.
    assert (Hc : (2 * (k1 - k2) + 1 <= -1)%Z \/ (1 <= 2 * (k1 - k2) + 1)%Z)
      by lia.
    destruct Hc as [Hc | Hc]; apply IZR_le in Hc; nra.
  - assert (Hd : difference_of_angles a0 (orientation s)
                 - difference_of_angles a0 (orientation s - PI)
                 = PI * IZR (2 * (k1 - k2) - 1)).
    { rewrite minus_IZR, mult_IZR, minus_IZR, E1, E2. ring. }
    rewrite Hr in Hc2.
    assert (Hc : (2 * (k1 - k2) - 1 <= -1)%Z \/ (1 <= 2 * (k1 - k2) - 1)%Z)
      by lia.
    destruct Hc as [Hc | Hc]; apply IZR_le in Hc; nra.
Qed.

Lemma filter_lines_not_both_directions_witness :
  ~ (In (true, mkSeg 0 (-10) 0 10)
       (filter_lines [mkSeg 0 (-10) 0 10; mkSeg 0 10 0 (-10)] (0, 0)%Z 5) /\
     In (true, reverse_segment (mkSeg 0 (-10) 0 10))
       (filter_lines [mkSeg 0 (-10) 0 10; mkSeg 0 10 0 (-10)] (0, 0)%Z 5)).
Proof.
  apply (filter_lines_not_both_directions
           [mkSeg 0 (-10) 0 10; mkSeg 0 10 0 (-10)] (0, 0)%Z 5
           (mkSeg 0 (-10) 0 10)).
  right. simpl. lia.
Defined.

(** ** Circular mean, continued *)

Section MeanAnglesMore.






Lemma sum_repeat (x : R) (n : nat) :
  fold_right Rplus 0 (repeat x n) = INR n * x.
Proof.
  induction n as [| n IH].
  - simpl. ring.
  - rewrite S_INR. simpl. rewrite IH. ring.
Qed.

Lemma np_mean_repeat (x : R) (n : nat) :
  (0 < n)%nat -> np_mean (repeat x n) = Some x.
Proof.
  intros Hn. destruct n as [| n]; [lia |].
  unfold np_mean. cbn [repeat].
  change (x :: repeat x n) with (repeat x (S n)).
  rewrite sum_repeat, repeat_length. f_equal.
  field. apply not_0_INR. discriminate.
Qed.

(** X10: a history that holds the same angle of [(-PI, PI]] any number of
    times is smoothed to that angle. *)
Theorem mean_angles_constant (theta : R) (n : nat) :
  (0 < n)%nat -> - PI < theta <= PI ->
  mean_angles (repeat theta n) = Some theta.
Proof.
  intros Hn Ht. unfold mean_angles.
  rewrite !map_repeat, !np_mean_repeat by assumption.
  f_equal. now apply atan2_sin_cos.
Qed.

Lemma mean_angles_constant_witness :
  mean_angles (repeat (PI / 2) 3) = Some (PI / 2).
Proof.
  apply (mean_angles_constant (PI / 2) 3); [lia |].
  pose proof PI_RGT_0. lra.
Defined.

End MeanAnglesMore.

(** ** Calibration, continued *)

Section CalibrationMore.

Lemma calc_mm_body_fields (theta_b theta_r : R) :
  let l := calc_mm_body theta_b theta_r in
  l_mm_r_d l = modf_frac (l_mm_r l) /\
  l_theta_d l
  = difference_of_angles (normalized theta_b) (l_mm_r_d l * PI * 2) /\
  l_mm_offset l = l_theta_d l / (2 * PI) /\
  l_mm_blended l = l_mm_r l + l_mm_offset l /\
  l_mm_final l = l_mm_blended l - c_haimer_ball_diam / 2.
Proof.
  cbv zeta.
  split; [reflexivity |].
  split; [| split; [reflexivity | split; reflexivity]].
  rewrite <- calc_mm_body_theta_b with (theta_r := theta_r).
  reflexivity.
Qed.

Lemma calc_mm_body_bounds (theta_b theta_r : R) :
  let l := calc_mm_body theta_b theta_r in
  0 <= l_mm_b l <= 1 /\
  (0 - c_red_angle_start) / (c_red_angle_end - c_red_angle_start)
  * c_haimer_ball_diam <= l_mm_r l
  <= (2 * PI - c_red_angle_start) / (c_red_angle_end - c_red_angle_start)
     * c_haimer_ball_diam /\
  l_mm_r l - c_haimer_ball_diam / 2 - 1 / 2 <= l_mm_final l
  <= l_mm_r l - c_haimer_ball_diam / 2 + 1 / 2.
Proof.
  pose proof PI_RGT_0 as Hpi. cbv zeta.
  destruct (calc_mm_body_facts theta_b theta_r)
    as (Eb & Er & Hb & Hr & Emb & Emr).
  destruct (calc_mm_body_fields theta_b theta_r)
    as (_ & Ed & Eo & Ebl & Ef).
  set (l := calc_mm_body theta_b theta_r) in *.
  split; [| split].
  - rewrite Emb. split.
    + apply Rmult_le_pos; [lra |].
      left. apply Rinv_0_lt_compat. lra.
    + apply (Rmult_le_reg_r (2 * PI)); [lra |].
      unfold Rdiv. rewrite Rmult_assoc, Rinv_l by lra. lra.
  - rewrite Emr.
    unfold c_red_angle_end, c_red_angle_start, c_haimer_ball_diam. lra.
  - rewrite Ef, Ebl, Eo.
    pose proof (atan2_bounds
                  (sin (normalized theta_b - l_mm_r_d l * PI * 2))
                  (cos (normalized theta_b - l_mm_r_d l * PI * 2))) as Ha.
    fold (difference_of_angles (normalized theta_b) (l_mm_r_d l * PI * 2))
      in Ha.
    rewrite <- Ed in Ha.
    assert (Hq : - (1 / 2) < l_theta_d l / (2 * PI) <= 1 / 2).
    { split.
      - apply (Rmult_lt_reg_r (2 * PI)); [lra |].
        unfold Rdiv at 2. rewrite Rmult_assoc, Rinv_l by lra. lra.
      - apply (Rmult_le_reg_r (2 * PI)); [lra |].
        unfold Rdiv at 1. rewrite Rmult_assoc, Rinv_l by lra. lra. }
    lra.
Qed.

(** X11: whatever the two angles, [mm_b] lies in [0, 1], [mm_r] lies
    between the readings of the two ends of the clamp, and the fine hand
    moves the coarse reading by at most half a millimetre: [mm_final] is
    within [1/2] of [mm_r] less the ball radius, both ends included. *)
Theorem calc_mm_bounds (st : calc_static) (theta_b theta_r : R) :
  let '(mm_final, mm_b, mm_r) := snd (calc_mm st theta_b theta_r) in
  0 <= mm_b <= 1 /\
  (0 - c_red_angle_start) / (c_red_angle_end - c_red_angle_start)
  * c_haimer_ball_diam <= mm_r
  <= (2 * PI - c_red_angle_start) / (c_red_angle_end - c_red_angle_start)
     * c_haimer_ball_diam /\
  mm_r - c_haimer_ball_diam / 2 - 1 / 2 <= mm_final
  <= mm_r - c_haimer_ball_diam / 2 + 1 / 2.
Proof.
  rewrite calc_mm_result. exact (calc_mm_body_bounds theta_b theta_r).
Qed.

(** X12: the blended reading takes its fractional part from the fine hand:
    [mm_final] plus the ball radius is [mm_b] plus a whole number of
    millimetres. *)
Theorem calc_mm_fraction (st : calc_static) (theta_b theta_r : R) :
  let '(mm_final, mm_b, mm_r) := snd (calc_mm st theta_b theta_r) in
  exists n : Z, mm_final + c_haimer_ball_diam / 2 = IZR n + mm_b.
Proof.
  pose proof PI_RGT_0 as Hpi.
  rewrite calc_mm_result.
  destruct (calc_mm_body_facts theta_b theta_r)
    as (Eb & _ & _ & _ & Emb & _).
  destruct (calc_mm_body_fields theta_b theta_r)
    as (Efr & Ed & Eo & Ebl & Ef).
  set (l := calc_mm_body theta_b theta_r) in *.
  destruct (difference_of_angles_spec (normalized theta_b)
              (l_mm_r_d l * PI * 2)) as (_ & k & Hk).
  exists (trunc (l_mm_r l) + k)%Z.
  rewrite Ef, Ebl, Eo, Ed, Hk, Emb, Eb, plus_IZR.
  assert (Hfr : l_mm_r l = IZR (trunc (l_mm_r l)) + l_mm_r_d l).
  { rewrite Efr. unfold modf_frac. ring. }
  rewrite Hfr at 1. field. lra.
Qed.

Lemma normalized_add_turn (theta : R) :
  - (2 * PI) <= theta < 0 -> normalized (theta + 2 * PI) = normalized theta.
Proof.
  intros H. pose proof PI_RGT_0.
  unfold normalized, Rmax, Rmin. case_Rlt; lra.
Qed.

Lemma calc_mm_body_normalized (theta_b theta_r theta_b' theta_r' : R) :
  normalized theta_b = normalized theta_b' ->
  normalized theta_r = normalized theta_r' ->
  calc_mm_body theta_b theta_r = calc_mm_body theta_b' theta_r'.
Proof.
  intros Hb Hr.
  pose proof (calc_mm_body_theta_b theta_b theta_r) as E1.
  pose proof (calc_mm_body_theta_r theta_b theta_r) as E2.
  pose proof (calc_mm_body_theta_b theta_b' theta_r') as E3.
  pose proof (calc_mm_body_theta_r theta_b' theta_r') as E4.
  unfold calc_mm_body in *. cbv zeta in *. simpl in E1, E2, E3, E4.
  rewrite E1, E2, E3, E4, Hb, Hr. reflexivity.
Qed.

(** X13: a negative angle and the same angle a full turn further give the
    same reading, for either hand; and all the angles from a full turn on
    read as the full turn. *)
Theorem calc_mm_full_turn (st : calc_static) (theta_b theta_r : R) :
  (- (2 * PI) <= theta_b < 0 ->
   snd (calc_mm st (theta_b + 2 * PI) theta_r)
   = snd (calc_mm st theta_b theta_r)) /\
  (- (2 * PI) <= theta_r < 0 ->
   snd (calc_mm st theta_b (theta_r + 2 * PI))
   = snd (calc_mm st theta_b theta_r)) /\
  (2 * PI <= theta_b ->
   snd (calc_mm st theta_b theta_r) = snd (calc_mm st (2 * PI) theta_r)) /\
  (2 * PI <= theta_r ->
   snd (calc_mm st theta_b theta_r) = snd (calc_mm st theta_b (2 * PI))).
Proof.
  pose proof PI_RGT_0 as Hpi.
  rewrite !calc_mm_result.
  split; [| split; [| split]]; intros H.
  - now rewrite (calc_mm_body_normalized (theta_b + 2 * PI) theta_r
                   theta_b theta_r (normalized_add_turn _ H) eq_refl).
  - now rewrite (calc_mm_body_normalized theta_b (theta_r + 2 * PI)
                   theta_b theta_r eq_refl (normalized_add_turn _ H)).
  - rewrite (calc_mm_body_normalized theta_b theta_r (2 * PI) theta_r);
      [reflexivity | | reflexivity].
    destruct (normalized_range theta_b) as (_ & H1).
    destruct (normalized_range (2 * PI)) as (_ & H2).
    rewrite H1, H2; lra.
  - rewrite (calc_mm_body_normalized theta_b theta_r theta_b (2 * PI));
      [reflexivity | reflexivity |].
    destruct (normalized_range theta_r) as (_ & H1).
    destruct (normalized_range (2 * PI)) as (_ & H2).
    rewrite H1, H2; lra.
Qed.

Lemma calc_mm_full_turn_witness :
  snd (calc_mm (mkCalcStatic [] false) (- PI + 2 * PI) 0)
  = snd (calc_mm (mkCalcStatic [] false) (- PI) 0).
Proof.
  apply (proj1 (calc_mm_full_turn (mkCalcStatic [] false) (- PI) 0)).
  pose proof PI_RGT_0. lra.
Defined.

End CalibrationMore.

(** ** The measurement cycle, continued *)

Section CycleMore.

Variable K : nat.
Variable c_center_offset : Z * Z.

Lemma get_measurement_static (gs : gm_static) (cs : calc_static) (f : frame) :
  exists hb hr,
    fst (fst (get_measurement K c_center_offset gs cs f))
    = mkGmStatic hb hr (pause_updates gs)
        (if standalone gs then false
         else if standalone gs then save gs else false)
        (if standalone gs then record gs else false)
        (if standalone gs && (if standalone gs then record gs else false)
         then S (record_ind gs) else record_ind gs)
        (debug_view gs) (standalone gs).
Proof.
  unfold get_measurement.
  destruct (append_v (theta_b_l gs) _ K) as [| b hb];
    destruct (append_v (theta_r_l gs) _ K) as [| r hr];
    try (eexists; eexists; reflexivity).
  destruct (mean_angles (b :: hb)), (mean_angles (r :: hr));
    try (eexists; eexists; reflexivity).
  destruct (calc_mm cs r0 r1) as [[cs' out] [[mf mb] mr]].
  eexists; eexists; reflexivity.
Qed.

Lemma get_measurement_flags_aux (gs : gm_static) (cs : calc_static)
  (f : frame) :
  let gs' := fst (fst (get_measurement K c_center_offset gs cs f)) in
  save gs' = false /\
  pause_updates gs' = pause_updates gs /\
  debug_view gs' = debug_view gs /\
  standalone gs' = standalone gs /\
  record gs' = standalone gs && record gs /\
  record_ind gs'
  = (if standalone gs && record gs then S (record_ind gs)
     else record_ind gs).
Proof.
  cbv zeta.
  destruct (get_measurement_static gs cs f) as (hb & hr & ->). simpl.
  destruct (standalone gs), (record gs); simpl; auto 10.
Qed.

(** X14: a cycle never leaves the save request pending, never touches the
    pause, debug-view and standalone flags, and records only in standalone
    mode: outside it the record flag is cleared and the record counter
    kept; inside it the counter goes up by one exactly when recording is
    on. *)
Theorem get_measurement_flags (gs : gm_static) (cs : calc_static)
  (f : frame) :
  let gs' := fst (fst (get_measurement K c_center_offset gs cs f)) in
  save gs' = false /\
  pause_updates gs' = pause_updates gs /\
  debug_view gs' = debug_view gs /\
  standalone gs' = standalone gs /\
  record gs' = standalone gs && record gs /\
  record_ind gs'
  = (if standalone gs && record gs then S (record_ind gs)
     else record_ind gs).
Proof. exact (get_measurement_flags_aux gs cs f). Qed.

(** X15: whatever the frame and the histories, a measurement that is
    returned lies between the reading of the lower end of the clamp less
    the ball radius and a half, and that of its upper end less the ball
    radius plus a half, both ends included. *)
Theorem get_measurement_range (gs : gm_static) (cs : calc_static)
  (f : frame) (mm_final : R) :
  snd (get_measurement K c_center_offset gs cs f) = Some mm_final ->
  (0 - c_red_angle_start) / (c_red_angle_end - c_red_angle_start)
  * c_haimer_ball_diam - c_haimer_ball_diam / 2 - 1 / 2 <= mm_final
  <= (2 * PI - c_red_angle_start) / (c_red_angle_end - c_red_angle_start)
     * c_haimer_ball_diam - c_haimer_ball_diam / 2 + 1 / 2.
Proof.
  intros Hmm.
  destruct (get_measurement_cases K c_center_offset gs cs f)
    as [Hsome Hnone].
  set (r := get_measurement K c_center_offset gs cs f) in *.
  destruct (theta_b_l (fst (fst r))) as [| b hb] eqn:Hb.
  { destruct Hnone as [Hn _]; [now left |]. congruence. }
  destruct (theta_r_l (fst (fst r))) as [| x hr] eqn:Hr.
  { destruct Hnone as [Hn _]; [now right |]. congruence. }
  destruct Hsome as (tb & tr & _ & _ & Hres & _);
    [split; discriminate |].
  rewrite Hres in Hmm. injection Hmm as <-.
  rewrite calc_mm_result. cbn [fst snd].
  destruct (calc_mm_body_bounds tb tr) as (_ & Hr' & Hf).
  lra.
Qed.

End CycleMore.

Lemma get_measurement_range_witness :
  (0 - c_red_angle_start) / (c_red_angle_end - c_red_angle_start)
  * c_haimer_ball_diam - c_haimer_ball_diam / 2 - 1 / 2 <= -2
  <= (2 * PI - c_red_angle_start) / (c_red_angle_end - c_red_angle_start)
     * c_haimer_ball_diam - c_haimer_ball_diam / 2 + 1 / 2.
Proof.
  apply (get_measurement_range 200 (18, -6)%Z
           (mkGmStatic [0] [c_red_angle_start] false false false 0 false
              false)
           (mkCalcStatic [] false) (mkFrame 640 480 None None)).
  pose proof PI_gt_3 as Hpi.
  unfold get_measurement. simpl append_v. cbv iota beta.
  rewrite !mean_angles_single.
  rewrite (atan2_sin_cos 0) by lra.
  rewrite (atan2_sin_cos c_red_angle_start)
    by (unfold c_red_angle_start; lra).
  pose proof (calibration_scenario_1 (mkCalcStatic [] false)) as Hs.
  destruct (calc_mm (mkCalcStatic [] false) 0 c_red_angle_start)
    as [[cs' out] [[mf mb] mr]].
  simpl in Hs. injection Hs as -> _ _. reflexivity.
Defined.

(** ** Keyboard control *)

Section Keys.

Lemma ord_values :
  ord "p" = 112%Z /\ ord "r" = 114%Z /\ ord "s" = 115%Z /\
  ord "d" = 100%Z /\ ord "z" = 122%Z /\ ord "q" = 113%Z.
Proof. repeat split. Qed.

Ltac key_cases key :=
  unfold process_key;
  change (ord "p") with 112%Z; change (ord "r") with 114%Z;
  change (ord "s") with 115%Z; change (ord "d") with 100%Z;
  change (ord "z") with 122%Z; change (ord "q") with 113%Z;
  cbv zeta;
  destruct (Z.eqb_spec key 112); [subst |];
  [| destruct (Z.eqb_spec key 114); [subst |];
     [| destruct (Z.eqb_spec key 115); [subst |];
        [| destruct (Z.eqb_spec key 100); [subst |];
           [| destruct (Z.eqb_spec key 122); [subst |];
              [| destruct (Z.leb_spec 81 key);
                 [destruct (Z.leb_spec key 84) |];
                 cbv [andb];
                 [| destruct (Z.eqb_spec key 27); [subst |];
                    [| cbv [orb];
                       destruct (Z.eqb_spec key 113); [subst |];
                       [| destruct (Z.leb_spec 0 key)]]
                  | destruct (Z.eqb_spec key 27); [subst |];
                    [| cbv [orb];
                       destruct (Z.eqb_spec key 113); [subst |];
                       [| destruct (Z.leb_spec 0 key)]]]]]]]].

Lemma process_key_quit_iff (c : controls) (key : Z) :
  process_key c key = Quit <-> key = 27%Z \/ key = 113%Z.
Proof.
  key_cases key; split; intros Hq; try discriminate; try lia; auto;
    destruct (tare_on (k_calc c)); discriminate.
Qed.

Lemma process_key_keeps (c : controls) (key : Z) (b : bool) (c' : controls) :
  process_key c key = Returned b c' ->
  theta_b_l (k_gm c') = theta_b_l (k_gm c) /\
  theta_r_l (k_gm c') = theta_r_l (k_gm c) /\
  record_ind (k_gm c') = record_ind (k_gm c) /\
  standalone (k_gm c') = standalone (k_gm c).
Proof.
  key_cases key; intros Hq; try discriminate;
    try (destruct (tare_on (k_calc c)));
    injection Hq as _ <-; simpl; auto.
Qed.

(** X16: [process_key] raises the quit exception for Escape and [q] and
    for no other key; it returns [False] exactly for the non-negative keys
    it has no branch for, and then changes nothing; and no key changes the
    angle histories, the record counter or the standalone flag. *)
Theorem process_key_outcomes (c : controls) (key : Z) :
  (process_key c key = Quit <-> key = 27%Z \/ key = 113%Z) /\
  (forall c', process_key c key = Returned false c' ->
              c' = c /\ (0 <= key)%Z /\ ~ known_key key) /\
  ((0 <= key)%Z -> ~ known_key key -> process_key c key = Returned false c) /\
  (forall b c', process_key c key = Returned b c' ->
                theta_b_l (k_gm c') = theta_b_l (k_gm c) /\
                theta_r_l (k_gm c') = theta_r_l (k_gm c) /\
                record_ind (k_gm c') = record_ind (k_gm c) /\
                standalone (k_gm c') = standalone (k_gm c)).
Proof.
  unfold known_key.
  split; [| split; [| split]].
  - key_cases key; split; intros Hq; try discriminate; try lia; auto;
      destruct (tare_on (k_calc c)); discriminate.
  - intros c'. key_cases key; intros Hq; try discriminate;
      try (destruct (tare_on (k_calc c)); discriminate);
      injection Hq as <-; (split; [reflexivity |]);
      (split; [assumption | lia]).
  - intros Hq0 Hk. key_cases key; try reflexivity; exfalso; try lia;
      apply Hk; auto 10.
  - intros b c'. key_cases key; intros Hq; try discriminate;
      try (destruct (tare_on (k_calc c)));
      injection Hq as _ <-; simpl; auto.
Qed.

Lemma process_key_outcomes_witness :
  process_key
    (mkControls (mkGmStatic [] [] false false false 0 false true)
       (mkCalcStatic [] false) (18, -6)%Z) 255
  = Returned false
      (mkControls (mkGmStatic [] [] false false false 0 false true)
         (mkCalcStatic [] false) (18, -6)%Z).
Proof.
  apply (proj1 (proj2 (proj2 (process_key_outcomes
           (mkControls (mkGmStatic [] [] false false false 0 false true)
              (mkCalcStatic [] false) (18, -6)%Z) 255)))).
  - lia.
  - unfold known_key. lia.
Defined.

End Keys.

Section KeysMore.

(** X17: the tare key flips the tare flag and always empties the
    accumulator, leaving everything else alone; pressed twice it restores
    the flag, with an empty accumulator. *)
Theorem process_key_tare (c : controls) :
  exists c1 c2,
    process_key c (ord "z") = Returned true c1 /\
    process_key c1 (ord "z") = Returned true c2 /\
    tare_lst (k_calc c1) = [] /\
    tare_on (k_calc c1) = negb (tare_on (k_calc c)) /\
    k_gm c1 = k_gm c /\ k_center_offset c1 = k_center_offset c /\
    c2 = mkControls (k_gm c) (mkCalcStatic [] (tare_on (k_calc c)))
           (k_center_offset c).
Proof.
  unfold process_key. change (ord "z") with 122%Z.
  change (ord "p") with 112%Z. change (ord "r") with 114%Z.
  change (ord "s") with 115%Z. change (ord "d") with 100%Z.
  cbv zeta. simpl Z.eqb. cbv iota.
  destruct (tare_on (k_calc c)) eqn:Ht.
  - eexists; eexists. split; [reflexivity |]. simpl.
    repeat split; reflexivity.
  - eexists; eexists. split; [reflexivity |]. simpl.
    repeat split; reflexivity.
Qed.

(** X18: each arrow key moves the pivot used by the next cycle by exactly
    one pixel, left, up, right or down, for every frame size; the opposite
    arrow brings the controls back. *)
Theorem process_key_arrows (c : controls) (w h : Z) :
  let pivot c := c_image_center (k_center_offset c) w h in
  exists cl cu cr cd,
    process_key c 81 = Returned true cl /\
    process_key c 82 = Returned true cu /\
    process_key c 83 = Returned true cr /\
    process_key c 84 = Returned true cd /\
    pivot cl = (fst (pivot c) - 1, snd (pivot c))%Z /\
    pivot cu = (fst (pivot c), snd (pivot c) - 1)%Z /\
    pivot cr = (fst (pivot c) + 1, snd (pivot c))%Z /\
    pivot cd = (fst (pivot c), snd (pivot c) + 1)%Z /\
    process_key cl 83 = Returned true c /\
    process_key cr 81 = Returned true c /\
    process_key cu 84 = Returned true c /\
    process_key cd 82 = Returned true c.
Proof.
  cbv zeta. destruct c as [gs cs [ox oy]].
  unfold process_key, c_image_center.
  change (ord "z") with 122%Z.
  change (ord "p") with 112%Z. change (ord "r") with 114%Z.
  change (ord "s") with 115%Z. change (ord "d") with 100%Z.
  cbv zeta. simpl.
  eexists; eexists; eexists; eexists.
  split; [reflexivity |]. split; [reflexivity |].
  split; [reflexivity |]. split; [reflexivity |].
  simpl.
  split; [f_equal; lia |]. split; [f_equal; lia |].
  split; [f_equal; lia |]. split; [f_equal; lia |].
  split; [do 3 f_equal; lia |]. split; [do 3 f_equal; lia |].
  split; do 3 f_equal; lia.
Qed.

(** X19: the pause, record and debug-view keys are switches: the same key
    pressed twice restores the controls. *)
Theorem process_key_switches (c : controls) (key : Z) :
  key = ord "p" \/ key = ord "r" \/ key = ord "d" ->
  exists c1,
    process_key c key = Returned true c1 /\
    process_key c1 key = Returned true c.
Proof.
  destruct c as [[hb hr pu sv rc ri dv sa] cs off].
  intros [-> | [-> | ->]]; unfold process_key;
    change (ord "p") with 112%Z; change (ord "r") with 114%Z;
    change (ord "s") with 115%Z; change (ord "d") with 100%Z;
    cbv zeta; simpl;
    eexists; (split; [reflexivity |]); simpl;
    rewrite negb_involutive; reflexivity.
Qed.

Lemma process_key_switches_witness :
  exists c1,
    process_key
      (mkControls (mkGmStatic [] [] false false false 0 false true)
         (mkCalcStatic [] false) (18, -6)%Z) (ord "p")
    = Returned true c1 /\
    process_key c1 (ord "p")
    = Returned true
        (mkControls (mkGmStatic [] [] false false false 0 false true)
           (mkCalcStatic [] false) (18, -6)%Z).
Proof.
  apply (process_key_switches
           (mkControls (mkGmStatic [] [] false false false 0 false true)
              (mkCalcStatic [] false) (18, -6)%Z) (ord "p")).
  left. reflexivity.
Defined.

End KeysMore.

(** ** The main loop *)

Section MainLoopFacts.

Variable K : nat.

Lemma main_round_quit (c : controls) (f : frame) (wait_key : Z) :
  fst (main_round K c f wait_key) = None <-> quit_key wait_key.
Proof.
  unfold main_round, quit_key.
  destruct (get_measurement K (k_center_offset c) (k_gm c) (k_calc c) f)
    as [[gs cs] mm].
  pose proof (process_key_quit_iff (mkControls gs cs (k_center_offset c))
                (Z.land wait_key 255)) as Hq.
  destruct (process_key (mkControls gs cs (k_center_offset c))
              (Z.land wait_key 255)) as [| b c'].
  - simpl. split; [intros _; now apply Hq | reflexivity].
  - simpl. split; [discriminate |].
    intros H. apply Hq in H. discriminate.
Qed.

(** X20: the loop of [main] makes one measurement per round; it goes on
    as long as the masked key is neither Escape nor [q], and it is left in
    the first round where it is one of them, after the measurement of that
    round. *)
Theorem main_loop_rounds (c : controls) (events : list (frame * Z)) :
  (Forall (fun e => ~ quit_key (snd e)) events ->
   exists c',
     fst (main_loop K c events) = Some c' /\
     length (snd (main_loop K c events)) = length events) /\
  (forall pre f wait_key post,
      events = pre ++ (f, wait_key) :: post ->
      Forall (fun e => ~ quit_key (snd e)) pre ->
      quit_key wait_key ->
      fst (main_loop K c events) = None /\
      length (snd (main_loop K c events)) = S (length pre)).
Proof.
  split.
  - revert c. induction events as [| [f k] events IH]; intros c Hall.
    + simpl. eauto.
    + inversion Hall as [| e l Hk Hrest]; subst. simpl in Hk.
      simpl.
      destruct (main_round K c f k) as [[c1 |] mm] eqn:Hr.
      * destruct (IH c1 Hrest) as (c' & Hc' & Hlen).
        destruct (main_loop K c1 events) as [c2 mms].
        simpl in *. rewrite Hlen. eauto.
      * exfalso. apply Hk. apply (main_round_quit c f k).
        now rewrite Hr.
  - intros pre f k post -> Hpre Hq. revert c.
    induction pre as [| [f0 k0] pre IH]; intros c.
    + simpl.
      assert (Hn : fst (main_round K c f k) = None)
        by (now apply main_round_quit).
      destruct (main_round K c f k) as [[c1 |] mm]; [discriminate |].
      simpl. auto.
    + inversion Hpre as [| e l Hk Hrest]; subst. simpl in Hk.
      simpl.
      destruct (main_round K c f0 k0) as [[c1 |] mm] eqn:Hr.
      * destruct (IH Hrest c1) as (Hf & Hlen).
        destruct (main_loop K c1 (pre ++ (f, k) :: post)) as [c2 mms].
        simpl in *. rewrite Hlen. auto.
      * exfalso. apply Hk. apply (main_round_quit c f0 k0).
        now rewrite Hr.
Qed.

End MainLoopFacts.

Lemma main_loop_rounds_witness :
  exists c',
    fst (main_loop 200
           (mkControls (mkGmStatic [] [] false false false 0 false true)
              (mkCalcStatic [] false) (18, -6)%Z)
           [(mkFrame 640 480 None None, (-1)%Z)]) = Some c' /\
    length (snd (main_loop 200
                   (mkControls
                      (mkGmStatic [] [] false false false 0 false true)
                      (mkCalcStatic [] false) (18, -6)%Z)
                   [(mkFrame 640 480 None None, (-1)%Z)]))
    = length [(mkFrame 640 480 None None, (-1)%Z)].
Proof.
  apply (proj1 (main_loop_rounds 200
           (mkControls (mkGmStatic [] [] false false false 0 false true)
              (mkCalcStatic [] false) (18, -6)%Z)
           [(mkFrame 640 480 None None, (-1)%Z)])).
  constructor; [| constructor].
  unfold quit_key. simpl. lia.
Defined.

(** ** The morphological skeleton, continued *)

Module SkeletonFacts.

Import Image ImageFacts.
Local Open Scope Z_scope.

Lemma build_ext (h w : nat) (f g : Z -> Z -> Z) :
  (forall i j, inside h w i j -> f i j = g i j) ->
  build h w f = build h w g.
Proof.
  intros H. unfold build.
  apply map_ext_in. intros i Hi. apply in_seq in Hi.
  apply map_ext_in. intros j Hj. apply in_seq in Hj.
  apply H. unfold inside. lia.
Qed.

Lemma shaped_build (h w : nat) (f : Z -> Z -> Z) :
  shaped h w (build h w f).
Proof.
  split.
  - apply height_build.
  - unfold build. apply Forall_forall. intros row Hrow.
    apply in_map_iff in Hrow as (i & <- & _).
    now rewrite length_map, length_seq.
Qed.

Lemma threshold_build (img : image) :
  threshold img
  = build (height img) (width img)
      (fun i j => if 127 <? px 0 img i j then 255 else 0).
Proof. reflexivity. Qed.

(** *** Images without background *)

Lemma px_full (h w : nat) (i j : Z) :
  px 255 (build h w (fun _ _ => 255)) i j = 255.
Proof.
  destruct (inside_dec h w i j) as [[Hi Hj] | Hout].
  - now rewrite px_build_in.
  - now rewrite px_build_out.
Qed.

Lemma erode_full (h w : nat) :
  (0 < h)%nat ->
  erode (build h w (fun _ _ => 255)) = build h w (fun _ _ => 255).
Proof.
  intros Hh. unfold erode. rewrite height_build, width_build by assumption.
  apply build_ext. intros i j _. simpl. now rewrite !px_full.
Qed.

Lemma countNonZero_full (h w : nat) :
  (0 < h)%nat -> (0 < w)%nat ->
  countNonZero (build h w (fun _ _ => 255)) <> 0%nat.
Proof.
  intros Hh Hw.
  assert (H : Nat.lt (countNonZero (build h w (fun _ _ => 0)))
                (countNonZero (build h w (fun _ _ => 255)))).
  { apply countNonZero_lt.
    - intros i j _ H. now contradict H.
    - exists 0, 0. unfold inside. split; [lia |]. split; [reflexivity | lia]. }
  lia.
Qed.

Lemma full_loop (h w : nat) :
  (0 < h)%nat -> (0 < w)%nat ->
  forall fuel skeleton iters,
    find_skeleton_loop fuel (build h w (fun _ _ => 255)) skeleton iters
    = None.
Proof.
  intros Hh Hw. induction fuel as [| fuel IH]; intros skeleton iters;
    [reflexivity |].
  rewrite find_skeleton_loop_step, erode_full by assumption.
  pose proof (countNonZero_full h w Hh Hw) as Hc.
  apply Nat.eqb_neq in Hc. rewrite Hc. apply IH.
Qed.

(** X21: on an image with at least one pixel and no background pixel,
    [find_skeleton] never returns, however many rounds it is given: the
    image is its own erosion. *)
Theorem find_skeleton_full_image (img : image) (fuel : nat) :
  (0 < height img)%nat -> (0 < width img)%nat ->
  all_foreground img ->
  find_skeleton fuel img = None.
Proof.
  intros Hh Hw Hall. unfold find_skeleton.
  rewrite threshold_build.
  rewrite (build_ext (height img) (width img) _ (fun _ _ => 255)).
  - now apply full_loop.
  - intros i j [Hi Hj].
    specialize (Hall (Z.to_nat i) (Z.to_nat j)).
    rewrite !Z2Nat.id in Hall by lia.
    assert (H : 127 < px 0 img i j) by (apply Hall; lia).
    apply Z.ltb_lt in H. now rewrite H.
Qed.

Lemma find_skeleton_full_image_witness :
  find_skeleton 7 [[255; 200; 255]; [128; 255; 255]] = None.
Proof.
  apply (find_skeleton_full_image [[255; 200; 255]; [128; 255; 255]] 7).
  - unfold height. simpl. lia.
  - unfold width. simpl. lia.
  - intros i j Hi Hj. unfold height, width in Hi, Hj. simpl in Hi, Hj.
    destruct i as [| [| i]]; [| | lia];
      (destruct j as [| [| [| j]]]; [| | | lia]); reflexivity.
Defined.

(** *** What the skeleton is made of *)

Lemma fold_min_binary {A : Type} (g : A -> Z) (l : list A) :
  (forall o, In o l -> binary (g o)) ->
  binary (fold_right Z.min 255 (map g l)).
Proof.
  unfold binary.
  induction l as [| x l IH]; simpl; intros H; [now right |].
  destruct (H x) as [Hx | Hx]; [now left | |];
    destruct IH as [Hl | Hl]; auto; rewrite Hx, Hl; auto.
Qed.

Lemma fold_max_binary {A : Type} (g : A -> Z) (l : list A) :
  (forall o, In o l -> binary (g o)) ->
  binary (fold_right Z.max 0 (map g l)).
Proof.
  unfold binary.
  induction l as [| x l IH]; simpl; intros H; [now left |].
  destruct (H x) as [Hx | Hx]; [now left | |];
    destruct IH as [Hl | Hl]; auto; rewrite Hx, Hl; auto.
Qed.

Lemma px_binary (d : Z) (h w : nat) (f : Z -> Z -> Z) (i j : Z) :
  binary d ->
  (forall i j, inside h w i j -> binary (f i j)) ->
  binary (px d (build h w f) i j).
Proof.
  intros Hd Hf. destruct (inside_dec h w i j) as [Hin | Hout].
  - destruct Hin as [Hi Hj]. rewrite px_build_in by assumption.
    apply Hf. now split.
  - now rewrite px_build_out.
Qed.

Lemma lor_binary (a b : Z) : binary a -> binary b -> binary (Z.lor a b).
Proof. unfold binary. intros [-> | ->] [-> | ->]; simpl; auto. Qed.

Lemma sub_binary (a b : Z) :
  binary a -> binary b -> binary (Z.max 0 (a - b)).
Proof. unfold binary. intros [-> | ->] [-> | ->]; simpl; auto. Qed.

(** One round of the loop on built images: the next working image and the
    next skeleton. *)
Lemma round_build (h w : nat) (f s : Z -> Z -> Z) :
  (0 < h)%nat ->
  (forall i j, inside h w i j -> binary (f i j)) ->
  (forall i j, inside h w i j -> binary (s i j)) ->
  exists e s',
    erode (build h w f) = build h w e /\
    bitwise_or (build h w s)
      (subtract (build h w f) (dilate (erode (build h w f))))
    = build h w s' /\
    (forall i j, inside h w i j -> binary (e i j)) /\
    (forall i j, inside h w i j -> e i j <> 0 -> f i j <> 0) /\
    (forall i j, inside h w i j -> binary (s' i j)) /\
    (forall i j, inside h w i j ->
                 s' i j <> 0 -> s i j <> 0 \/ f i j <> 0).
Proof.
  intros Hh Hf Hs.
  assert (Hf0 : forall i j, inside h w i j -> 0 <= f i j).
  { intros i j Hin. destruct (Hf i j Hin) as [-> | ->]; lia. }
  destruct (erode_step h w f Hh Hf0) as (e & He & _ & Hsub & _).
  assert (Heb : forall i j, inside h w i j -> binary (e i j)).
  { intros i j Hin.
    assert (Hpx : px 255 (erode (build h w f)) i j = e i j)
      by (rewrite He; destruct Hin; now apply px_build_in).
    rewrite <- Hpx. unfold erode.
    rewrite height_build, width_build by assumption.
    destruct Hin as [Hi Hj]. rewrite px_build_in by assumption.
    apply fold_min_binary. intros o _.
    apply px_binary; [now right | exact Hf]. }
  exists e.
  set (D := dilate (build h w e)).
  assert (HD : forall i j, binary (px 0 D i j)).
  { intros i j. unfold D, dilate.
    rewrite height_build, width_build by assumption.
    apply px_binary; [now left |].
    intros i' j' _. apply fold_max_binary. intros o _.
    apply px_binary; [now left | exact Heb]. }
  exists (fun i j => Z.lor (s i j) (Z.max 0 (f i j - px 0 D i j))).
  split; [exact He |]. rewrite He. fold D.
  split.
  { unfold bitwise_or, subtract.
    rewrite !height_build, !width_build by assumption.
    apply build_ext. intros i j [Hi Hj].
    now rewrite !px_build_in by assumption. }
  split; [exact Heb |]. split; [exact Hsub |].
  split.
  - intros i j Hin. apply lor_binary; [now apply Hs |].
    apply sub_binary; [now apply Hf | apply HD].
  - intros i j Hin Hne.
    destruct (Z.eq_dec (s i j) 0) as [Hz | Hnz]; [| now left].
    right. intros Hfz. apply Hne. rewrite Hz, Hfz.
    destruct (HD i j) as [-> | ->]; reflexivity.
Qed.

Lemma loop_skeleton (h w : nat) (t : Z -> Z -> Z) :
  (0 < h)%nat ->
  forall fuel f s iters res n,
    (forall i j, inside h w i j -> binary (f i j)) ->
    (forall i j, inside h w i j -> binary (s i j)) ->
    (forall i j, inside h w i j -> f i j <> 0 -> t i j <> 0) ->
    (forall i j, inside h w i j -> s i j <> 0 -> t i j <> 0) ->
    find_skeleton_loop fuel (build h w f) (build h w s) iters
    = Some (res, n) ->
    exists s',
      res = build h w s' /\
      (forall i j, inside h w i j -> binary (s' i j)) /\
      (forall i j, inside h w i j -> s' i j <> 0 -> t i j <> 0).
Proof.
  intros Hh. induction fuel as [| fuel IH];
    intros f s iters res n Hf Hs Hft Hst Hrun; [discriminate |].
  rewrite find_skeleton_loop_step in Hrun.
  destruct (round_build h w f s Hh Hf Hs)
    as (e & s' & He & Hs' & Heb & Hsub & Hsb & Hsrc).
  rewrite Hs' in Hrun. rewrite He in Hrun.
  assert (Hst' : forall i j, inside h w i j -> s' i j <> 0 -> t i j <> 0).
  { intros i j Hin Hne. destruct (Hsrc i j Hin Hne); auto. }
  destruct (countNonZero (build h w e) =? 0)%nat.
  - injection Hrun as <- _. exists s'. auto.
  - apply (IH e s' (iters + 1)%nat res n); auto.
Qed.

Lemma find_skeleton_empty_height (img : image) (fuel : nat) :
  height img = 0%nat ->
  find_skeleton (S fuel) img = Some ([], 1%nat).
Proof.
  intros Hh. unfold find_skeleton, threshold, zeros. rewrite Hh.
  reflexivity.
Qed.

(** X22: the skeleton [find_skeleton] returns has the shape of the input,
    its pixels are 0 or 255, and it is part of the foreground: a pixel of
    the skeleton that is set is above the threshold in the input. *)
Theorem find_skeleton_inside_foreground (img : image) (fuel : nat)
  (skeleton : image) (iters : nat) :
  find_skeleton fuel img = Some (skeleton, iters) ->
  shaped (height img) (width img) skeleton /\
  forall i j,
    binary (px 0 skeleton i j) /\
    (px 0 skeleton i j <> 0 -> 127 < px 0 img i j).
Proof.
  intros Hrun.
  destruct (Nat.eq_dec (height img) 0) as [Hz | Hnz].
  - destruct fuel as [| fuel]; [discriminate |].
    rewrite find_skeleton_empty_height in Hrun by assumption.
    injection Hrun as <- _. rewrite Hz. split.
    + split; [reflexivity | constructor].
    + intros i j.
      assert (Hp : px 0 [] i j = 0).
      { unfold px. destruct ((i <? 0) || (j <? 0)); [reflexivity |].
        now destruct (Z.to_nat i), (Z.to_nat j). }
      rewrite Hp. split; [now left | intros H; now contradict H].
  - unfold find_skeleton in Hrun. rewrite threshold_build in Hrun.
    set (h := height img) in *. set (w := width img) in *.
    set (t := fun i j : Z => if 127 <? px 0 img i j then 255 else 0) in *.
    assert (Ht : forall i j, inside h w i j -> binary (t i j)).
    { intros i j _. unfold t, binary.
      destruct (127 <? px 0 img i j); auto. }
    assert (Hh : (0 < h)%nat) by lia.
    assert (Hz0 : forall i j, inside h w i j -> binary 0)
      by (intros; now left).
    assert (Htt : forall i j, inside h w i j -> t i j <> 0 -> t i j <> 0)
      by auto.
    assert (Hzt : forall i j, inside h w i j -> 0 <> 0 -> t i j <> 0)
      by (intros i j _ H; now contradict H).
    destruct (loop_skeleton h w t Hh fuel t (fun _ _ => 0) 0%nat
                skeleton iters Ht Hz0 Htt Hzt Hrun) as (s' & -> & Hb & Hsub).
    split; [apply shaped_build |].
    intros i j. split.
    + apply px_binary; [now left | exact Hb].
    + intros Hne.
      destruct (inside_dec h w i j) as [Hin | Hout].
      * destruct Hin as [Hi Hj].
        rewrite px_build_in in Hne by assumption.
        assert (Hti : t i j <> 0) by (apply Hsub; [now split | exact Hne]).
        unfold t in Hti.
        destruct (127 <? px 0 img i j) eqn:Hc; [| now contradict Hti].
        now apply Z.ltb_lt.
      * rewrite px_build_out in Hne by assumption. now contradict Hne.
Qed.

Lemma find_skeleton_inside_foreground_witness :
  shaped (height [[255; 0]; [255; 255]]) (width [[255; 0]; [255; 255]])
    [[0; 0]; [255; 0]] /\
  forall i j,
    binary (px 0 [[0; 0]; [255; 0]] i j) /\
    (px 0 [[0; 0]; [255; 0]] i j <> 0 ->
     127 < px 0 [[255; 0]; [255; 255]] i j).
Proof.
  apply (find_skeleton_inside_foreground [[255; 0]; [255; 255]] 4
           [[0; 0]; [255; 0]] 2).
  reflexivity.
Defined.

(** X23: on an image without foreground, [find_skeleton] returns after one
    round, with a skeleton that has no pixel set. *)
Theorem find_skeleton_no_foreground (img : image) (fuel : nat) :
  (forall i j,
      inside (height img) (width img) i j -> px 0 img i j <= 127) ->
  exists skeleton,
    find_skeleton (S fuel) img = Some (skeleton, 1%nat) /\
    countNonZero skeleton = 0%nat /\
    shaped (height img) (width img) skeleton.
Proof.
  intros Hbg.
  destruct (Nat.eq_dec (height img) 0) as [Hz | Hnz].
  - exists []. rewrite find_skeleton_empty_height by assumption.
    rewrite Hz. repeat split. constructor.
  - unfold find_skeleton. rewrite threshold_build.
    set (h := height img) in *. set (w := width img) in *.
    rewrite (build_ext h w _ (fun _ _ => 0)).
    2:{ intros i j Hin. specialize (Hbg i j Hin).
        apply Z.ltb_ge in Hbg. now rewrite Hbg. }
    rewrite find_skeleton_loop_step.
    assert (Hh : (0 < h)%nat) by lia.
    assert (Hzb : forall i j, inside h w i j -> binary 0)
      by (intros; now left).
    destruct (round_build h w (fun _ _ => 0) (fun _ _ => 0) Hh Hzb Hzb)
      as (e & s' & He & Hs' & _ & Hsub & _ & Hsrc).
    unfold zeros. rewrite Hs', He.
    assert (Hce : countNonZero (build h w e) = 0%nat).
    { destruct (Nat.eq_dec (countNonZero (build h w e)) 0) as [| Hne];
        [assumption |].
      exfalso.
      destruct (countNonZero_pos h w e Hne) as (i & j & Hin & Hnz').
      now apply (Hsub i j Hin Hnz'). }
    rewrite Hce. simpl. exists (build h w s').
    split; [reflexivity |]. split; [| apply shaped_build].
    destruct (Nat.eq_dec (countNonZero (build h w s')) 0) as [| Hne];
      [assumption |].
    exfalso.
    destruct (countNonZero_pos h w s' Hne) as (i & j & Hin & Hnz').
    destruct (Hsrc i j Hin Hnz') as [H | H]; now apply H.
Qed.

Lemma find_skeleton_no_foreground_witness :
  exists skeleton,
    find_skeleton 1 [[0; 100]; [127; 3]] = Some (skeleton, 1%nat) /\
    countNonZero skeleton = 0%nat /\
    shaped (height [[0; 100]; [127; 3]]) (width [[0; 100]; [127; 3]])
      skeleton.
Proof.
  apply (find_skeleton_no_foreground [[0; 100]; [127; 3]] 0).
  intros i j [Hi Hj]. unfold height, width in Hi, Hj. simpl in Hi, Hj.
  assert (Hc : (i = 0 \/ i = 1) /\ (j = 0 \/ j = 1)) by lia.
  destruct Hc as [[-> | ->] [-> | ->]]; vm_compute; discriminate.
Defined.

End SkeletonFacts.

(** ** Detection of a pointer *)

Section Detection.

Variable image_center : point.

(** X24: [arrow_common] has no angle for a pointer exactly when
    [cv2.HoughLinesP] found nothing, or none of the segments it found
    passes within 5 pixels of the pivot, a quarter of the radius of the
    inner mask. *)
Theorem arrow_common_none (lines : option (list segment)) :
  arrow_common lines image_center = None <->
  lines = None \/
  exists ls,
    lines = Some ls /\
    forall s, In s ls -> ~ near_pivot s image_center 5.
Proof.
  destruct lines as [ls |]; simpl.
  - change (c_inner_mask_r / 4)%Z with 5%Z. split.
    + intros Hnone. right. exists ls. split; [reflexivity |].
      intros s Hs Hn.
      destruct (summarize_lines_some_aux image_center 5 ls)
        as (_ & theta & Hsome & _); [eauto |].
      congruence.
    + intros [Hd | (ls' & Heq & Hfar)]; [discriminate |].
      injection Heq as <-.
      destruct (filter_lines_none_near image_center 5 ls Hfar) as [_ Heq].
      unfold summarize_lines. now rewrite Heq, endpoint_angles_none.
  - split; auto.
Qed.





End Detection.


(** ** The reference segment of the line filter *)

Section Reference.

Lemma longest_step_first (pre post : list flagged) (md : R) (m x : flagged) :
  fst m = true -> md = segment_length (snd m) ->
  (forall y, In y pre -> fst y = true ->
             segment_length (snd y) < segment_length (snd m)) ->
  (forall y, In y post -> fst y = true ->
             segment_length (snd y) <= segment_length (snd m)) ->
  exists pre' post' md' m',
    longest_step (Some (md, m)) x = Some (md', m') /\
    pre ++ m :: post ++ [x] = pre' ++ m' :: post' /\
    fst m' = true /\ md' = segment_length (snd m') /\
    (forall y, In y pre' -> fst y = true ->
               segment_length (snd y) < segment_length (snd m')) /\
    (forall y, In y post' -> fst y = true ->
               segment_length (snd y) <= segment_length (snd m')).
Proof.
  intros Hf Hmd Hpre Hpost. destruct x as [inc s]. unfold longest_step.
  destruct inc.
  - destruct (Rltb md (segment_length s)) eqn:Hc.
    + apply Rltb_true in Hc.
      exists (pre ++ m :: post), [], (segment_length s), (true, s).
      split; [reflexivity |].
      split; [now rewrite <- app_assoc |].
      split; [reflexivity |]. split; [reflexivity |].
      split; [| intros y []].
      simpl. intros y Hy Hfy.
      apply in_app_or in Hy as [Hy | [<- | Hy]].
      * specialize (Hpre y Hy Hfy). lra.
      * lra.
      * specialize (Hpost y Hy Hfy). lra.
    + apply Rltb_false in Hc.
      exists pre, (post ++ [(true, s)]), md, m.
      split; [reflexivity |]. split; [reflexivity |].
      split; [assumption |]. split; [assumption |].
      split; [assumption |].
      intros y Hy Hfy. apply in_app_or in Hy as [Hy | [<- | []]].
      * now apply Hpost.
      * simpl. lra.
  - exists pre, (post ++ [(false, s)]), md, m.
    split; [reflexivity |]. split; [reflexivity |].
    split; [assumption |]. split; [assumption |].
    split; [assumption |].
    intros y Hy Hfy. apply in_app_or in Hy as [Hy | [<- | []]].
    + now apply Hpost.
    + discriminate.
Qed.

Lemma fold_longest_first (rest : list flagged) :
  forall (pre post : list flagged) (md : R) (m : flagged),
    fst m = true -> md = segment_length (snd m) ->
    (forall y, In y pre -> fst y = true ->
               segment_length (snd y) < segment_length (snd m)) ->
    (forall y, In y post -> fst y = true ->
               segment_length (snd y) <= segment_length (snd m)) ->
    exists pre' post' md' m',
      fold_left longest_step rest (Some (md, m)) = Some (md', m') /\
      pre ++ m :: post ++ rest = pre' ++ m' :: post' /\
      fst m' = true /\ md' = segment_length (snd m') /\
      (forall y, In y pre' -> fst y = true ->
                 segment_length (snd y) < segment_length (snd m')) /\
      (forall y, In y post' -> fst y = true ->
                 segment_length (snd y) <= segment_length (snd m')).
Proof.
  induction rest as [| x rest IH]; intros pre post md m Hf Hmd Hpre Hpost.
  - exists pre, post, md, m. rewrite app_nil_r. auto 10.
  - destruct (longest_step_first pre post md m x Hf Hmd Hpre Hpost)
      as (pre1 & post1 & md1 & m1 & Hstep & Heq & Hf1 & Hmd1 & Hpre1 & Hpost1).
    destruct (IH pre1 post1 md1 m1 Hf1 Hmd1 Hpre1 Hpost1)
      as (pre2 & post2 & md2 & m2 & Hfold & Heq2 & Hrest).
    exists pre2, post2, md2, m2. simpl. rewrite Hstep.
    split; [exact Hfold |]. split; [| exact Hrest].
    rewrite <- Heq2.
    replace (pre ++ m :: post ++ x :: rest)
      with ((pre ++ m :: post ++ [x]) ++ rest)
      by (rewrite <- !app_assoc; simpl; rewrite <- app_assoc; reflexivity).
    rewrite Heq. rewrite <- app_assoc. reflexivity.
Qed.

(** X26: the reference the second loop of [filter_lines] settles on is the
    first of the longest flagged segments: the flagged segments before it
    are strictly shorter, and those after it are not longer. *)
Theorem longest_line_first (lines2 : list flagged) (md : R) (m : flagged) :
  longest_line lines2 = Some (md, m) ->
  exists pre post,
    lines2 = pre ++ m :: post /\
    fst m = true /\ md = segment_length (snd m) /\
    (forall y, In y pre -> fst y = true ->
               segment_length (snd y) < segment_length (snd m)) /\
    (forall y, In y post -> fst y = true ->
               segment_length (snd y) <= segment_length (snd m)).
Proof.
  unfold longest_line.
  assert (Hgen : forall pre,
             (forall y, In y pre -> fst y = false) ->
             fold_left longest_step lines2 None = Some (md, m) ->
             exists pre' post,
               pre ++ lines2 = pre' ++ m :: post /\
               fst m = true /\ md = segment_length (snd m) /\
               (forall y, In y pre' -> fst y = true ->
                          segment_length (snd y) < segment_length (snd m)) /\
               (forall y, In y post -> fst y = true ->
                          segment_length (snd y) <= segment_length (snd m))).
  { induction lines2 as [| [inc s] l IH]; intros pre Hpre Hrun;
      [discriminate |].
    simpl in Hrun. destruct inc.
    - destruct (fold_longest_first l pre [] (segment_length s) (true, s))
        as (pre' & post' & md' & m' & Hfold & Heq & Hrest); auto.
      + intros y Hy Hfy. rewrite (Hpre y Hy) in Hfy. discriminate.
      + intros y [].
      + rewrite Hfold in Hrun. injection Hrun as -> ->.
        exists pre', post'. split; [exact Heq | exact Hrest].
    - destruct (IH (pre ++ [(false, s)])) as (pre' & post & Heq & Hrest).
      + intros y Hy. apply in_app_or in Hy as [Hy | [<- | []]]; auto.
      + exact Hrun.
      + exists pre', post. split; [| exact Hrest].
        rewrite <- Heq, <- app_assoc. reflexivity. }
  intros Hrun. apply (Hgen [] (fun y (H : In y []) => match H with end) Hrun).
Qed.

Lemma longest_line_first_witness :
  exists pre post,
    [(true, mkSeg 0 0 3 4); (true, mkSeg 0 0 4 3)]
    = pre ++ (true, mkSeg 0 0 3 4) :: post /\
    fst (true, mkSeg 0 0 3 4) = true /\
    segment_length (mkSeg 0 0 3 4)
    = segment_length (snd (true, mkSeg 0 0 3 4)) /\
    (forall y, In y pre -> fst y = true ->
               segment_length (snd y)
               < segment_length (snd (true, mkSeg 0 0 3 4))) /\
    (forall y, In y post -> fst y = true ->
               segment_length (snd y)
               <= segment_length (snd (true, mkSeg 0 0 3 4))).
Proof.
  apply (longest_line_first [(true, mkSeg 0 0 3 4); (true, mkSeg 0 0 4 3)]
           (segment_length (mkSeg 0 0 3 4)) (true, mkSeg 0 0 3 4)).
  unfold longest_line. simpl.
  replace (segment_length (mkSeg 0 0 4 3))
    with (segment_length (mkSeg 0 0 3 4))
    by (unfold segment_length; simpl; reflexivity).
  assert (H : Rltb (segment_length (mkSeg 0 0 3 4))
                (segment_length (mkSeg 0 0 3 4)) = false)
    by (apply Rltb_false; lra).
  now rewrite H.
Defined.

End Reference.

(** ** Invariants of the main loop *)

Section MainInvariants.

Variable K : nat.

Lemma main_round_keeps (c c1 : controls) (f : frame) (wait_key : Z)
  (mm : option R) :
  main_round K c f wait_key = (Some c1, mm) ->
  standalone (k_gm c1) = standalone (k_gm c) /\
  (record_ind (k_gm c) <= record_ind (k_gm c1))%nat /\
  k_center_offset c1 = k_center_offset c \/
  standalone (k_gm c1) = standalone (k_gm c) /\
  (record_ind (k_gm c) <= record_ind (k_gm c1))%nat /\
  (81 <= Z.land wait_key 255 <= 84)%Z.
Proof.
  unfold main_round.
  pose proof (get_measurement_flags_aux K (k_center_offset c) (k_gm c)
                (k_calc c) f) as Hfl.
  cbv zeta in Hfl.
  destruct (get_measurement K (k_center_offset c) (k_gm c) (k_calc c) f)
    as [[gs cs] mm0].
  simpl in Hfl. destruct Hfl as (_ & _ & _ & Hsa & _ & Hri).
  destruct (process_key (mkControls gs cs (k_center_offset c))
              (Z.land wait_key 255)) as [| b c2] eqn:Hk; [discriminate |].
  intros Heq. injection Heq as -> _.
  destruct (process_key_keeps _ _ _ _ Hk) as (_ & _ & Hri' & Hsa').
  simpl in Hri', Hsa'.
  assert (Hle : (record_ind (k_gm c) <= record_ind (k_gm c1))%nat).
  { rewrite Hri', Hri. destruct (standalone (k_gm c) && record (k_gm c));
      lia. }
  destruct (Z_le_dec 81 (Z.land wait_key 255)) as [H81 | H81];
    [destruct (Z_le_dec (Z.land wait_key 255) 84) as [H84 | H84] |].
  - right. split; [congruence |]. split; [exact Hle | lia].
  - left. split; [congruence |]. split; [exact Hle |].
    revert Hk. unfold process_key.
    change (ord "p") with 112%Z. change (ord "r") with 114%Z.
    change (ord "s") with 115%Z. change (ord "d") with 100%Z.
    change (ord "z") with 122%Z. change (ord "q") with 113%Z.
    cbv zeta.
    replace (Z.land wait_key 255 <=? 84)%Z with false
      by (symmetry; apply Z.leb_gt; lia).
    rewrite andb_false_r.
    repeat match goal with
           | |- context [(?a =? ?b)%Z] => destruct (a =? b)%Z
           | |- context [(?a <=? ?b)%Z] => destruct (a <=? b)%Z
           | |- context [tare_on ?x] => destruct (tare_on x)
           end; simpl; intros Hq; try discriminate;
      injection Hq as _ <-; reflexivity.
  - left. split; [congruence |]. split; [exact Hle |].
    revert Hk. unfold process_key.
    change (ord "p") with 112%Z. change (ord "r") with 114%Z.
    change (ord "s") with 115%Z. change (ord "d") with 100%Z.
    change (ord "z") with 122%Z. change (ord "q") with 113%Z.
    cbv zeta.
    replace (81 <=? Z.land wait_key 255)%Z with false
      by (symmetry; apply Z.leb_gt; lia).
    rewrite andb_false_l.
    repeat match goal with
           | |- context [(?a =? ?b)%Z] => destruct (a =? b)%Z
           | |- context [(?a <=? ?b)%Z] => destruct (a <=? b)%Z
           | |- context [tare_on ?x] => destruct (tare_on x)
           end; simpl; intros Hq; try discriminate;
      injection Hq as _ <-; reflexivity.
Qed.

Lemma main_loop_keeps (events : list (frame * Z)) :
  forall c c' mms,
    main_loop K c events = (Some c', mms) ->
    standalone (k_gm c') = standalone (k_gm c) /\
    (record_ind (k_gm c) <= record_ind (k_gm c'))%nat /\
    (Forall (fun e => ~ (81 <= Z.land (snd e) 255 <= 84)%Z) events ->
     k_center_offset c' = k_center_offset c).
Proof.
  induction events as [| [f k] events IH]; intros c c' mms Hrun.
  - simpl in Hrun. injection Hrun as <- _. auto.
  - simpl in Hrun.
    destruct (main_round K c f k) as [[c1 |] mm] eqn:Hr; [| discriminate].
    destruct (main_loop K c1 events) as [c2 mms'] eqn:Hl.
    injection Hrun as -> _.
    destruct (IH c1 c' mms' Hl) as (Hsa & Hri & Hoff).
    destruct (main_round_keeps c c1 f k mm Hr)
      as [(Hsa1 & Hri1 & Hoff1) | (Hsa1 & Hri1 & Harrow)].
    + split; [congruence |]. split; [lia |].
      intros Hall. inversion Hall; subst. rewrite Hoff by assumption.
      exact Hoff1.
    + split; [congruence |]. split; [lia |].
      intros Hall. inversion Hall as [| e l Hk Hrest]; subst.
      simpl in Hk. contradiction.
Qed.

(** X27: while [main] runs, the standalone flag stays set and the record
    counter never goes down; and as long as no arrow key is pressed the
    pivot offset stays what it was. *)
Theorem main_invariants (c c' : controls) (events : list (frame * Z))
  (mms : list (option R)) :
  main K c events = (Some c', mms) ->
  standalone (k_gm c') = true /\
  (record_ind (k_gm c) <= record_ind (k_gm c'))%nat /\
  (Forall (fun e => ~ (81 <= Z.land (snd e) 255 <= 84)%Z) events ->
   k_center_offset c' = k_center_offset c).
Proof.
  unfold main. intros Hrun.
  apply main_loop_keeps in Hrun. simpl in Hrun. exact Hrun.
Qed.

End MainInvariants.

Lemma main_invariants_witness :
  standalone
    (k_gm (mkControls (mkGmStatic [] [] false false false 0 false true)
             (mkCalcStatic [] false) (18, -6)%Z)) = true /\
  (record_ind
     (k_gm (mkControls (mkGmStatic [] [] false false false 0 false false)
              (mkCalcStatic [] false) (18, -6)%Z))
   <= record_ind
        (k_gm (mkControls (mkGmStatic [] [] false false false 0 false true)
                 (mkCalcStatic [] false) (18, -6)%Z)))%nat /\
  (Forall (fun e : frame * Z => ~ (81 <= Z.land (snd e) 255 <= 84)%Z)
     [(mkFrame 640 480 None None, (-1)%Z)] ->
   k_center_offset
     (mkControls (mkGmStatic [] [] false false false 0 false true)
        (mkCalcStatic [] false) (18, -6)%Z)
   = k_center_offset
       (mkControls (mkGmStatic [] [] false false false 0 false false)
          (mkCalcStatic [] false) (18, -6)%Z)).
Proof.
  apply (main_invariants 200
           (mkControls (mkGmStatic [] [] false false false 0 false false)
              (mkCalcStatic [] false) (18, -6)%Z)
           (mkControls (mkGmStatic [] [] false false false 0 false true)
              (mkCalcStatic [] false) (18, -6)%Z)
           [(mkFrame 640 480 None None, (-1)%Z)] [None]).
  reflexivity.
Defined.
